(** * prefixtrie: a radix-compressed trie over every suffix of the added keys

    Shallow embedding of [prefix_trie.go].  A Go [string] is an immutable
    sequence of bytes, a [rune] and an [int] are integers, a slice is the list
    of its elements.  The functions of the packages [unicode/utf8] and
    [strings] that the program calls are modelled in the modules [utf8] and
    [strings].  A run-time panic of the Go program (a slice expression or an
    index that is out of range) is the result [Panic]; the loops and the
    recursion of [add] run on fuel and give [OutOfFuel] when it is exhausted,
    which [commonPrefix_fuel], [find_fuel], [add_fuel_enough] and
    [build_fuel] show never to happen on the fuel that the definitions
    supply. *)

From Stdlib Require Import List ZArith Lia Bool Arith Permutation Sorted.
From Stdlib Require Import Strings.Byte.
From Stdlib Require Strings.String.
Import Stdlib.Strings.String.StringSyntax.
Import ListNotations.

(** ** Results of partial operations *)

Inductive result (A : Type) : Type :=
| Ok (a : A)
| Panic
| OutOfFuel.

Arguments Ok {A} a.
Arguments Panic {A}.
Arguments OutOfFuel {A}.

Definition bind {A B : Type} (r : result A) (k : A -> result B) : result B :=
  match r with
  | Ok a => k a
  | Panic => Panic
  | OutOfFuel => OutOfFuel
  end.

Notation "x <- r ;; k" := (bind r (fun x => k))
  (at level 61, r at next level, right associativity).

(** ** Go strings and the packages [unicode/utf8] and [strings] *)

Definition gostring : Type := list byte.

Definition str (s : String.string) : gostring := String.list_byte_of_string s.

Arguments str s%_string_scope.

Definition byteZ (b : byte) : Z := Z.of_N (Byte.to_N b).

Definition eqb_string (a b : gostring) : bool :=
  if list_eq_dec Byte.byte_eq_dec a b then true else false.

(** [s[i:]] and [s[:i]]; both panic in Go when [i > len(s)]. *)
Definition slice_from (s : gostring) (i : nat) : result gostring :=
  if i <=? length s then Ok (skipn i s) else Panic.

Definition slice_to (s : gostring) (i : nat) : result gostring :=
  if i <=? length s then Ok (firstn i s) else Panic.

(** Package [unicode/utf8], as far as the trie uses it. *)
Module utf8.

Local Open Scope Z_scope.

Definition RuneError : Z := 0xFFFD.

Definition mask2 : Z := 0x1F.
Definition mask3 : Z := 0x0F.
Definition mask4 : Z := 0x07.
Definition maskx : Z := 0x3F.
Definition locb : Z := 0x80.
Definition hicb : Z := 0xBF.

(** The table [first] of package [unicode/utf8], restricted to the lead bytes
    of multi-byte encodings: the size of the encoding and the range accepted
    for its second byte.  [None] stands for the entry [xx] (invalid). *)
Definition first (s0 : Z) : option (nat * Z * Z) :=
  if (0xC2 <=? s0) && (s0 <=? 0xDF) then Some (2%nat, locb, hicb)
  else if s0 =? 0xE0 then Some (3%nat, 0xA0, hicb)
  else if (0xE1 <=? s0) && (s0 <=? 0xEC) then Some (3%nat, locb, hicb)
  else if s0 =? 0xED then Some (3%nat, locb, 0x9F)
  else if (0xEE <=? s0) && (s0 <=? 0xEF) then Some (3%nat, locb, hicb)
  else if s0 =? 0xF0 then Some (4%nat, 0x90, hicb)
  else if (0xF1 <=? s0) && (s0 <=? 0xF3) then Some (4%nat, locb, hicb)
  else if s0 =? 0xF4 then Some (4%nat, locb, 0x8F)
  else None.

(** [utf8.DecodeRuneInString]: the first rune of [s] and its width in bytes;
    [(RuneError, 0)] on the empty string, [(RuneError, 1%nat)] on an invalid
    encoding. *)
Definition DecodeRuneInString (s : gostring) : Z * nat :=
  match s with
  | [] => (RuneError, 0%nat)
  | c0 :: t =>
    let s0 := byteZ c0 in
    if s0 <? 0x80 then (s0, 1%nat)
    else
      match first s0 with
      | None => (RuneError, 1%nat)
      | Some (sz, lo, hi) =>
        match t with
        | [] => (RuneError, 1%nat)
        | c1 :: t1 =>
          let s1 := byteZ c1 in
          if (s1 <? lo) || (hi <? s1) then (RuneError, 1%nat)
          else if (sz <=? 2)%nat then
            (Z.lor (Z.shiftl (Z.land s0 mask2) 6) (Z.land s1 maskx), 2%nat)
          else
            match t1 with
            | [] => (RuneError, 1%nat)
            | c2 :: t2 =>
              let s2 := byteZ c2 in
              if (s2 <? locb) || (hicb <? s2) then (RuneError, 1%nat)
              else if (sz <=? 3)%nat then
                (Z.lor (Z.lor (Z.shiftl (Z.land s0 mask3) 12)
                              (Z.shiftl (Z.land s1 maskx) 6))
                       (Z.land s2 maskx), 3%nat)
              else
                match t2 with
                | [] => (RuneError, 1%nat)
                | c3 :: _ =>
                  let s3 := byteZ c3 in
                  if (s3 <? locb) || (hicb <? s3) then (RuneError, 1%nat)
                  else
                    (Z.lor (Z.lor (Z.lor (Z.shiftl (Z.land s0 mask4) 18)
                                         (Z.shiftl (Z.land s1 maskx) 12))
                                  (Z.shiftl (Z.land s2 maskx) 6))
                           (Z.land s3 maskx), 4%nat)
                end
            end
        end
      end
  end.

Local Close Scope Z_scope.

(** [utf8.ValidString]: no rune of [s] decodes to [(RuneError, 1)]. *)
Fixpoint ValidString_fuel (fuel : nat) (s : gostring) : bool :=
  match s with
  | [] => true
  | _ :: _ =>
    match fuel with
    | 0 => false
    | S fuel' =>
      let '(r, size) := DecodeRuneInString s in
      if (r =? RuneError)%Z && (size =? 1) then false
      else ValidString_fuel fuel' (skipn size s)
    end
  end.

Definition ValidString (s : gostring) : bool := ValidString_fuel (length s) s.

End utf8.

Import utf8.

(** Package [strings]. *)
Module strings.

(** [strings.HasPrefix(s, prefix)]:
    [len(s) >= len(prefix) && s[:len(prefix)] == prefix]. *)
Definition HasPrefix (s prefix : gostring) : bool :=
  (length prefix <=? length s) && eqb_string (firstn (length prefix) s) prefix.

End strings.

Import strings.

(** ** Nodes and tries *)

#[warnings="-register-all"]
Inductive node : Type :=
  Node { prefix : gostring; values : list Z; children : list node }.

Record Trie : Type := { root : node }.

(** The zero value of [Trie]: empty strings and nil slices. *)
Definition zero : Trie := {| root := Node [] [] [] |}.

Definition firstRune (s : gostring) : Z := fst (utf8.DecodeRuneInString s).

(** The loop of [commonPrefix]; every iteration advances [i] by the width of
    a rune of the non-empty [b[i:]], so [commonLen] iterations are enough. *)
Fixpoint commonPrefix_loop (fuel : nat) (a b : gostring) (i commonLen : nat)
  : result nat :=
  if i <? commonLen then
    match fuel with
    | 0 => OutOfFuel
    | S fuel' =>
      sa <- slice_from a i ;;
      sb <- slice_from b i ;;
      let '(ra, _) := utf8.DecodeRuneInString sa in
      let '(rb, size) := utf8.DecodeRuneInString sb in
      if negb (ra =? rb)%Z then Ok i
      else commonPrefix_loop fuel' a b (i + size) commonLen
    end
  else Ok i.

Definition commonPrefix (a b : gostring) : result gostring :=
  let commonLen := if length b <? length a then length b else length a in
  i <- commonPrefix_loop commonLen a b 0 commonLen ;;
  slice_to a i.

Definition split (n : node) (commonPrefix : gostring) : result node :=
  rest <- slice_from (prefix n) (length commonPrefix) ;;
  Ok (Node commonPrefix [] [Node rest (values n) (children n)]).

(** The builtin [copy(dst, src)] seen from [dst]: the first
    [min(len(dst), len(src))] elements are overwritten. *)
Definition copy {A : Type} (dst src : list A) : list A :=
  firstn (length dst) src ++ skipn (length src) dst.

(** [s[i] = x] for [i < len(s)]. *)
Definition store {A : Type} (s : list A) (i : nat) (x : A) : list A :=
  firstn i s ++ x :: skipn (S i) s.

Definition insertChildAtIndex (n : node) (c : node) (i : nat) : result node :=
  let cs := children n in
  match nth_error cs (length cs - 1) with
  | None => Panic
  | Some l =>
    let cs1 := cs ++ [l] in
    if (i + 1 <=? length cs1) && (i <=? length cs1 - 1) then
      let cs2 :=
        firstn (i + 1) cs1
        ++ copy (skipn (i + 1) cs1) (firstn (length cs1 - 1 - i) (skipn i cs1)) in
      if i <? length cs2
      then Ok (Node (prefix n) (values n) (store cs2 i c))
      else Panic
    else Panic
  end.

(** The loop [for i := range n.children] of [add], from index [i] on; [rest]
    is [n.children[i:]] and [rec c] stands for [c.add(subKey, value)]. *)
Fixpoint add_loop (rec : node -> result node) (n : node) (rest : list node)
    (i : nat) (subKey : gostring) (fr : Z) (value : Z) : result node :=
  match rest with
  | [] =>
    Ok (Node (prefix n) (values n) (children n ++ [Node subKey [value] []]))
  | c :: rest' =>
    let firstRuneOfChild := firstRune (prefix c) in
    if (firstRuneOfChild =? fr)%Z then
      c' <- rec c ;;
      Ok (Node (prefix n) (values n) (store (children n) i c'))
    else if (firstRuneOfChild >? fr)%Z then
      insertChildAtIndex n (Node subKey [value] []) i
    else add_loop rec n rest' (S i) subKey fr value
  end.

(** The body of [add], with the recursive call abstracted as [rec]. *)
Definition add_body (rec : node -> gostring -> Z -> result node)
    (n : node) (key : gostring) (value : Z) : result node :=
  cp <- commonPrefix (prefix n) key ;;
  n <- (if length cp <? length (prefix n) then split n cp else Ok n) ;;
  if length cp =? length key then
    Ok (Node (prefix n) (values n ++ [value]) (children n))
  else
    subKey <- slice_from key (length cp) ;;
    add_loop (fun c => rec c subKey value) n (children n) 0
             subKey (firstRune subKey) value.

Fixpoint add_fuel (fuel : nat) (n : node) (key : gostring) (value : Z)
  : result node :=
  match fuel with
  | 0 => OutOfFuel
  | S fuel' => add_body (add_fuel fuel') n key value
  end.

Fixpoint height (n : node) : nat :=
  match n with
  | Node _ _ cs => S (list_max (map height cs))
  end.

Definition add (n : node) (key : gostring) (value : Z) : result node :=
  add_fuel (height n) n key value.

Fixpoint collectValues (n : node) (dst : list Z) : list Z :=
  match n with
  | Node _ vs cs => fold_left (fun dst c => collectValues c dst) cs (dst ++ vs)
  end.

(** The binary search inlined in [find]; [hi - lo] shrinks at every
    iteration, so [len(n.children)] iterations are enough. *)
Fixpoint search_loop (fuel : nat) (cs : list node) (fr : Z) (lo hi : nat)
  : result nat :=
  if lo <? hi then
    match fuel with
    | 0 => OutOfFuel
    | S fuel' =>
      let mid := lo + (hi - lo) / 2 in
      match nth_error cs mid with
      | None => Panic
      | Some c =>
        if (firstRune (prefix c) <? fr)%Z
        then search_loop fuel' cs fr (mid + 1) hi
        else search_loop fuel' cs fr lo mid
      end
    end
  else Ok lo.

Fixpoint find (n : node) (dst : list Z) (pfx : gostring) : result (list Z) :=
  match n with
  | Node p vs cs =>
    if strings.HasPrefix p pfx then Ok (collectValues (Node p vs cs) dst)
    else
      subPrefix <- slice_from pfx (length p) ;;
      let fr := firstRune subPrefix in
      lo <- search_loop (length cs) cs fr 0 (length cs) ;;
      if length cs <=? lo then Ok dst
      else
        match nth_error (map (fun c => (c, find c dst subPrefix)) cs) lo with
        | None => Panic
        | Some (c, r) =>
          if negb (firstRune (prefix c) =? fr)%Z then Ok dst else r
        end
  end.

(** [for i := range key]: the byte offsets at which the runes of [key] start
    (an invalid byte counts as a rune of width one).  [skip] is the number of
    bytes left of the rune being skipped. *)
Fixpoint range_from (s : gostring) (i skip : nat) : list nat :=
  match s with
  | [] => []
  | _ :: t =>
    match skip with
    | S k => range_from t (S i) k
    | 0 => i :: range_from t (S i) (snd (utf8.DecodeRuneInString s) - 1)
    end
  end.

Definition range (key : gostring) : list nat := range_from key 0 0.

Fixpoint Add_loop (t : Trie) (key : gostring) (value : Z) (offs : list nat)
  : result Trie :=
  match offs with
  | [] => Ok t
  | i :: offs' =>
    sub <- slice_from key i ;;
    r <- add (root t) sub value ;;
    Add_loop {| root := r |} key value offs'
  end.

Definition Add (t : Trie) (key : gostring) (value : Z) : result Trie :=
  Add_loop t key value (range key).

Definition Find (t : Trie) (dst : list Z) (pfx : gostring) : result (list Z) :=
  find (root t) dst pfx.

(** A trie built from the zero value by a sequence of [Add] calls. *)
Fixpoint build_from (t : Trie) (ops : list (gostring * Z)) : result Trie :=
  match ops with
  | [] => Ok t
  | (key, value) :: ops' => t' <- Add t key value ;; build_from t' ops'
  end.

Definition build (ops : list (gostring * Z)) : result Trie := build_from zero ops.

(** ** Specification: UTF-8 encodings and valid strings *)

Local Open Scope Z_scope.

(** [enc r chunk]: the bytes [chunk] are the UTF-8 encoding of the rune [r]
    (shortest form, no surrogates, at most U+10FFFF), in arithmetic form. *)
Definition enc (r : Z) (chunk : gostring) : Prop :=
  match map byteZ chunk with
  | [s0] => s0 < 0x80 /\ r = s0
  | [s0; s1] =>
    0xC2 <= s0 <= 0xDF /\ 0x80 <= s1 <= 0xBF /\
    r = (s0 - 0xC0) * 64 + (s1 - 0x80)
  | [s0; s1; s2] =>
    0xE0 <= s0 <= 0xEF /\ 0x80 <= s1 <= 0xBF /\
    (s0 = 0xE0 -> 0xA0 <= s1) /\ (s0 = 0xED -> s1 <= 0x9F) /\
    0x80 <= s2 <= 0xBF /\
    r = (s0 - 0xE0) * 4096 + (s1 - 0x80) * 64 + (s2 - 0x80)
  | [s0; s1; s2; s3] =>
    0xF0 <= s0 <= 0xF4 /\ 0x80 <= s1 <= 0xBF /\
    (s0 = 0xF0 -> 0x90 <= s1) /\ (s0 = 0xF4 -> s1 <= 0x8F) /\
    0x80 <= s2 <= 0xBF /\ 0x80 <= s3 <= 0xBF /\
    r = (s0 - 0xF0) * 262144 + (s1 - 0x80) * 4096 + (s2 - 0x80) * 64
        + (s3 - 0x80)
  | _ => False
  end.

(** The table [first] by ranges of lead bytes. *)
Definition first_ranges (s0 : Z) : option (nat * Z * Z) :=
  if (0xC2 <=? s0) && (s0 <=? 0xDF) then Some (2%nat, locb, hicb)
  else if (0xE0 <=? s0) && (s0 <=? 0xEF) then
    Some (3%nat, if s0 =? 0xE0 then 0xA0 else locb,
                 if s0 =? 0xED then 0x9F else hicb)
  else if (0xF0 <=? s0) && (s0 <=? 0xF4) then
    Some (4%nat, if s0 =? 0xF0 then 0x90 else locb,
                 if s0 =? 0xF4 then 0x8F else hicb)
  else None.

Local Close Scope Z_scope.

(** A valid string is a sequence of encodings of runes. *)
Inductive valid : gostring -> Prop :=
| valid_nil : valid []
| valid_rune (r : Z) (chunk rest : gostring) :
    enc r chunk -> valid rest -> valid (chunk ++ rest).

(** The outcome of [commonPrefix] on valid strings: a common prefix made of
    whole runes, after which one string ends or the next runes differ. *)
Definition splits_at (a b cp a' b' : gostring) : Prop :=
  a = cp ++ a' /\ b = cp ++ b' /\ valid cp /\ valid a' /\ valid b' /\
  (a' = [] \/ b' = [] \/ firstRune a' <> firstRune b').

(** ** Specification: well-formed nodes and what they store *)

(** The first rune of a child's label, the key that orders the children. *)
Definition child_key (c : node) : Z := firstRune (prefix c).

(** What the loop of [add] does to the children [cs] of a node: either a
    leaf is placed after the children of smaller first rune and before one
    of greater first rune, or the child of the same first rune is replaced,
    in its place, by the outcome of the recursive call. *)
Inductive add_loop_outcome (rec : node -> result node) (p : gostring)
    (vs : list Z) (cs : list node) (subKey : gostring) (fr value : Z)
  : result node -> Prop :=
| outcome_insert (l1 l2 : list node) :
    cs = l1 ++ l2 ->
    Forall (fun c => (child_key c < fr)%Z) l1 ->
    (l2 = [] \/ exists c l2', l2 = c :: l2' /\ (fr < child_key c)%Z) ->
    add_loop_outcome rec p vs cs subKey fr value
      (Ok (Node p vs (l1 ++ Node subKey [value] [] :: l2)))
| outcome_descend (l1 l2 : list node) (c : node) (r : result node) :
    cs = l1 ++ c :: l2 ->
    Forall (fun c => (child_key c < fr)%Z) l1 ->
    child_key c = fr ->
    r = (c' <- rec c ;; Ok (Node p vs (l1 ++ c' :: l2))) ->
    add_loop_outcome rec p vs cs subKey fr value r.

(** The first runes of the children's labels are strictly ascending. *)
Definition ascending (cs : list node) : Prop :=
  StronglySorted Z.lt (map child_key cs).

(** A well-formed node: valid labels, children in ascending order of first
    rune, no child with an empty label. *)
Fixpoint wf (n : node) : Prop :=
  match n with
  | Node p _ cs =>
    valid p /\ ascending cs /\
    (fix all (l : list node) : Prop :=
       match l with
       | [] => True
       | c :: l' => (prefix c <> [] /\ wf c) /\ all l'
       end) cs
  end.

(** What a well-formed node asks of a child. *)
Definition child_ok (c : node) : Prop := prefix c <> [] /\ wf c.

(** The strings that a subtree stores, each with its value: the labels along
    a path from the node, concatenated, for every value at the end of that
    path. *)
Definition shift (p : gostring) (es : list (gostring * Z))
  : list (gostring * Z) :=
  map (fun e => (p ++ fst e, snd e)) es.

Fixpoint entries (n : node) : list (gostring * Z) :=
  match n with
  | Node p vs cs =>
    shift p (map (fun v => ([], v)) vs ++ flat_map entries cs)
  end.

(** The suffixes that [Add(key, value)] inserts, each with the value. *)
Definition suffixes (key : gostring) (value : Z) : list (gostring * Z) :=
  map (fun i => (skipn i key, value)) (range key).

Definition all_suffixes (ops : list (gostring * Z)) : list (gostring * Z) :=
  flat_map (fun kv => suffixes (fst kv) (snd kv)) ops.

(** I3 and well-formedness: the root has an empty label and no value. *)
Definition trie_wf (t : Trie) : Prop :=
  wf (root t) /\ prefix (root t) = [] /\ values (root t) = [].

(** The keys of the operations are valid UTF-8, the contract of [Add]. *)
Definition valid_keys (ops : list (gostring * Z)) : Prop :=
  Forall (fun kv => ValidString (fst kv) = true) ops.

(** The stored string of the entry [e] starts with the query [q]. *)
Definition matches (q : gostring) (e : gostring * Z) : bool :=
  HasPrefix (fst e) q.

(** ** Specification: the invariants of the children *)

(** I1: the first runes of the labels of a node's children are unique and
    strictly ascending. *)
Definition I1 (n : node) : Prop :=
  NoDup (map child_key (children n)) /\ ascending (children n).

(** I2: no two children of a node have labels with a non-empty common
    prefix. *)
Definition I2 (n : node) : Prop :=
  forall i j ci cj,
    i <> j ->
    nth_error (children n) i = Some ci ->
    nth_error (children n) j = Some cj ->
    commonPrefix (prefix ci) (prefix cj) = Ok [].

(** [P] holds of the node and of every node below it. *)
Fixpoint every_node (P : node -> Prop) (n : node) : Prop :=
  match n with
  | Node p vs cs =>
    P (Node p vs cs) /\
    (fix all (l : list node) : Prop :=
       match l with
       | [] => True
       | c :: l' => every_node P c /\ all l'
       end) cs
  end.

(** ** Example tries *)

(** The trie of the example of the package documentation. *)

Definition ex_ops : list (gostring * Z) :=
  [(str "www.google.com", 0%Z); (str "www.foogle.net", 1%Z)].

Definition ex_trie : Trie :=
  match build ex_ops with Ok t => t | _ => zero end.

(** A node whose only child is labelled "abc". *)
Definition ex_parent : node := Node [] [] [Node (str "abc") [1%Z] []].

(** The operations of the package example in the other order, and with
    one more key. *)
Definition ex_ops_rev : list (gostring * Z) :=
  [(str "www.foogle.net", 1%Z); (str "www.google.com", 0%Z)].

Definition ex_trie_rev : Trie :=
  match build ex_ops_rev with Ok t => t | _ => zero end.

Definition ex_ops_more : list (gostring * Z) := [(str "moogle", 2%Z)].

Definition ex_trie_more : Trie :=
  match build (ex_ops ++ ex_ops_more) with Ok t => t | _ => zero end.

(** A node with a value somewhere in its subtree. *)
Definition stocked (n : node) : Prop := collectValues n [] <> [].

(** The values of a subtree in pre-order: those of the node, then those of
    the subtree of each child, in the order of the children. *)
Fixpoint preorder (n : node) : list Z :=
  match n with
  | Node _ vs cs => vs ++ flat_map preorder cs
  end.

(** ** The decoder on examples *)

Example decode_euro :
  DecodeRuneInString [xe2; x82; xac; x78] = (0x20AC%Z, 3).
Proof. reflexivity. Qed.

Example decode_trunc : DecodeRuneInString [xe2; x82] = (RuneError, 1).
Proof. reflexivity. Qed.

(** ** Bytes and the bit operations of the decoder *)

Lemma byteZ_range (b : byte) : (0 <= byteZ b < 256)%Z.
Proof.
  unfold byteZ. pose proof (Byte.to_N_bounded b). lia.
Qed.

Lemma byteZ_inj (a b : byte) : byteZ a = byteZ b -> a = b.
Proof.
  unfold byteZ. intros H. apply N2Z.inj in H.
  pose proof (Byte.of_to_N a) as Ha. pose proof (Byte.of_to_N b) as Hb.
  rewrite H in Ha. congruence.
Qed.

Lemma lor_shiftl_low (hi lo k : Z) :
  (0 <= k -> 0 <= lo < 2 ^ k -> Z.lor (Z.shiftl hi k) lo = hi * 2 ^ k + lo)%Z.
Proof.
  intros Hk Hlo.
  rewrite Z.shiftl_mul_pow2 by assumption.
  rewrite <- Z.add_lor_land.
  assert (Z.land (hi * 2 ^ k) lo = 0%Z) as ->; [|lia].
  replace lo with (Z.land (Z.ones k) lo) at 1
    by (rewrite Z.land_comm, Z.land_ones, Z.mod_small; auto).
  rewrite Z.land_assoc, Z.land_ones by assumption.
  rewrite Z.mod_mul by lia. reflexivity.
Qed.

Lemma land_mask2 (b : byte) : Z.land (byteZ b) mask2 = (byteZ b mod 32)%Z.
Proof. change mask2 with (Z.ones 5). now rewrite Z.land_ones. Qed.

Lemma land_mask3 (b : byte) : Z.land (byteZ b) mask3 = (byteZ b mod 16)%Z.
Proof. change mask3 with (Z.ones 4). now rewrite Z.land_ones. Qed.

Lemma land_mask4 (b : byte) : Z.land (byteZ b) mask4 = (byteZ b mod 8)%Z.
Proof. change mask4 with (Z.ones 3). now rewrite Z.land_ones. Qed.

Lemma land_maskx (b : byte) : Z.land (byteZ b) maskx = (byteZ b mod 64)%Z.
Proof. change maskx with (Z.ones 6). now rewrite Z.land_ones. Qed.

(** ** UTF-8 encodings *)

Local Open Scope Z_scope.

Lemma first_eq (c0 : byte) : first (byteZ c0) = first_ranges (byteZ c0).
Proof. destruct c0; reflexivity. Qed.

Lemma lor_low (x lo k m : Z) :
  m = 2 ^ k -> 0 <= k -> 0 <= lo < m -> x mod m = 0 -> Z.lor x lo = x + lo.
Proof.
  intros -> Hk Hlo Hx.
  rewrite (Z.div_mod x (2 ^ k)) at 1 by lia.
  rewrite Hx, Z.add_0_r, Z.mul_comm, <- Z.shiftl_mul_pow2 by assumption.
  rewrite lor_shiftl_low by assumption.
  rewrite (Z.div_mod x (2 ^ k)) at 2 by lia. lia.
Qed.

Ltac zlia := Z.div_mod_to_equations; lia.

Ltac shifts :=
  rewrite ?land_mask2, ?land_mask3, ?land_mask4, ?land_maskx;
  rewrite ?Z.shiftl_mul_pow2 by lia;
  change (2 ^ 6) with 64; change (2 ^ 12) with 4096;
  change (2 ^ 18) with 262144.

Lemma decode2 (c0 c1 : byte) :
  0xC0 <= byteZ c0 <= 0xDF -> 0x80 <= byteZ c1 <= 0xBF ->
  Z.lor (Z.shiftl (Z.land (byteZ c0) mask2) 6) (Z.land (byteZ c1) maskx)
  = (byteZ c0 - 0xC0) * 64 + (byteZ c1 - 0x80).
Proof.
  intros H0 H1. shifts.
  rewrite (@lor_low _ _ 6 64); [zlia | reflexivity | lia | zlia | zlia].
Qed.

Lemma decode3 (c0 c1 c2 : byte) :
  0xE0 <= byteZ c0 <= 0xEF -> 0x80 <= byteZ c1 <= 0xBF ->
  0x80 <= byteZ c2 <= 0xBF ->
  Z.lor (Z.lor (Z.shiftl (Z.land (byteZ c0) mask3) 12)
               (Z.shiftl (Z.land (byteZ c1) maskx) 6))
        (Z.land (byteZ c2) maskx)
  = (byteZ c0 - 0xE0) * 4096 + (byteZ c1 - 0x80) * 64 + (byteZ c2 - 0x80).
Proof.
  intros H0 H1 H2. shifts.
  rewrite (@lor_low (_ * 4096) _ 12 4096); [| reflexivity | lia | zlia | zlia].
  rewrite (@lor_low _ _ 6 64); [zlia | reflexivity | lia | zlia | zlia].
Qed.

Lemma decode4 (c0 c1 c2 c3 : byte) :
  0xF0 <= byteZ c0 <= 0xF7 -> 0x80 <= byteZ c1 <= 0xBF ->
  0x80 <= byteZ c2 <= 0xBF -> 0x80 <= byteZ c3 <= 0xBF ->
  Z.lor (Z.lor (Z.lor (Z.shiftl (Z.land (byteZ c0) mask4) 18)
                      (Z.shiftl (Z.land (byteZ c1) maskx) 12))
               (Z.shiftl (Z.land (byteZ c2) maskx) 6))
        (Z.land (byteZ c3) maskx)
  = (byteZ c0 - 0xF0) * 262144 + (byteZ c1 - 0x80) * 4096
    + (byteZ c2 - 0x80) * 64 + (byteZ c3 - 0x80).
Proof.
  intros H0 H1 H2 H3. shifts.
  rewrite (@lor_low (_ * 262144) _ 18 262144);
    [| reflexivity | lia | zlia | zlia].
  rewrite (@lor_low _ (_ * 64) 12 4096); [| reflexivity | lia | zlia | zlia].
  rewrite (@lor_low _ _ 6 64); [zlia | reflexivity | lia | zlia | zlia].
Qed.

Ltac cmp_in c :=
  lazymatch c with
  | context [Z.eqb ?a ?b] => destruct (Z.eqb_spec a b)
  | context [Z.leb ?a ?b] => destruct (Z.leb_spec a b)
  | context [Z.ltb ?a ?b] => destruct (Z.ltb_spec a b)
  | context [Nat.leb ?a ?b] => destruct (Nat.leb_spec a b)
  end.

(** One step along the decision tree of the decoder, at the head of a goal
    [decoder = result -> _]. *)
Ltac dec_step :=
  lazymatch goal with
  | |- (if ?c then _ else _) = _ -> _ =>
    cmp_in c; cbv beta iota delta [andb orb]; try lia
  | |- match ?t with [] => _ | _ :: _ => _ end = _ -> _ => destruct t
  | |- match (if ?c then _ else _) with Some _ => _ | None => _ end = _ -> _ =>
    cmp_in c; cbv beta iota delta [andb orb]; try lia
  end.

Ltac dec_start c0 :=
  cbv beta iota zeta delta [DecodeRuneInString];
  rewrite first_eq; unfold first_ranges, locb, hicb;
  pose proof (byteZ_range c0).

(** The decoder reads exactly an encoding, whatever follows it. *)
Lemma decode_enc (r : Z) (chunk rest : gostring) :
  enc r chunk -> DecodeRuneInString (chunk ++ rest) = (r, length chunk).
Proof.
  intros H. generalize (eq_refl (DecodeRuneInString (chunk ++ rest))).
  generalize (DecodeRuneInString (chunk ++ rest)) at 2 3. intros res.
  revert H. unfold enc.
  destruct chunk as [|c0 [|c1 [|c2 [|c3 [|c4 t]]]]];
    cbn [map app length]; try contradiction; intros H; dec_start c0.
  - repeat dec_step. intros <-. f_equal. lia.
  - repeat dec_step. intros <-. rewrite decode2 by lia. f_equal. lia.
  - repeat dec_step; intros <-; rewrite decode3 by lia; f_equal; lia.
  - repeat dec_step; intros <-; rewrite decode4 by lia; f_equal; lia.
Qed.

(** What the decoder returns, unless it reports an invalid encoding, is the
    rune of an encoding that the string starts with. *)
Lemma decode_inv (s : gostring) (r : Z) (sz : nat) :
  DecodeRuneInString s = (r, sz) -> (r, sz) <> (RuneError, 1%nat) ->
  s <> [] -> enc r (firstn sz s).
Proof.
  destruct s as [|c0 t]; [congruence|]. intros Hd Hne _. revert Hd.
  dec_start c0.
  repeat (dec_step; try (intros [= <- <-]; congruence)).
  all: intros Hd; apply pair_equal_spec in Hd; destruct Hd as [<- <-];
    clear Hne.
  all: rewrite ?decode2, ?decode3, ?decode4 by lia.
  all: unfold enc; cbn [firstn map]; lia.
Qed.

Lemma enc_length (r : Z) (chunk : gostring) :
  enc r chunk -> (1 <= length chunk <= 4)%nat.
Proof.
  unfold enc.
  destruct chunk as [|c0 [|c1 [|c2 [|c3 [|c4 t]]]]]; cbn [map length];
    try contradiction; lia.
Qed.

Ltac byte_ranges :=
  repeat match goal with
  | b : byte |- _ =>
    lazymatch goal with
    | H : 0 <= byteZ b < 256 |- _ => fail
    | _ => pose proof (byteZ_range b)
    end
  end.

(** A rune has one encoding. *)
Lemma enc_inj (r : Z) (c d : gostring) : enc r c -> enc r d -> c = d.
Proof.
  unfold enc.
  destruct c as [|c0 [|c1 [|c2 [|c3 [|c4 t]]]]]; cbn [map];
    try contradiction;
    destruct d as [|d0 [|d1 [|d2 [|d3 [|d4 u]]]]]; cbn [map];
      try contradiction; intros Hc Hd; byte_ranges;
      first [ exfalso; lia
            | repeat (f_equal; try (apply byteZ_inj; lia)) ].
Qed.

Local Close Scope Z_scope.

(** The width that the decoder reports lies within the string. *)
Lemma decode_size (s : gostring) :
  s <> [] -> 1 <= snd (DecodeRuneInString s) <= length s.
Proof.
  destruct s as [|c0 t]; [congruence|]. intros _.
  generalize (eq_refl (DecodeRuneInString (c0 :: t))).
  generalize (DecodeRuneInString (c0 :: t)) at 2 3 4. intros res.
  dec_start c0.
  repeat (dec_step; try (intros <-; cbn [snd length]; lia)).
Qed.

(** ** Valid UTF-8 *)

Lemma ValidString_fuel_valid (fuel : nat) (s : gostring) :
  ValidString_fuel fuel s = true -> valid s.
Proof.
  revert s. induction fuel as [|fuel IH]; intros [|c t]; cbn [ValidString_fuel];
    try discriminate; try (intros _; constructor).
  destruct (DecodeRuneInString (c :: t)) as [r size] eqn:Hd.
  destruct ((r =? RuneError)%Z && (size =? 1)) eqn:He; [discriminate|].
  intros Hv. rewrite <- (firstn_skipn size (c :: t)).
  apply valid_rune with (r := r); [|now apply IH].
  apply decode_inv; [assumption| |discriminate].
  intros [= -> ->]. now rewrite Z.eqb_refl in He.
Qed.

Lemma ValidString_valid (s : gostring) : ValidString s = true -> valid s.
Proof. apply ValidString_fuel_valid. Qed.

Lemma valid_app (a b : gostring) : valid a -> valid b -> valid (a ++ b).
Proof.
  induction 1 as [|r chunk rest He Hv IH]; intros Hb; [assumption|].
  rewrite <- app_assoc. apply valid_rune with (r := r); auto.
Qed.

Lemma valid_enc (r : Z) (chunk : gostring) : enc r chunk -> valid chunk.
Proof.
  intros He. rewrite <- (app_nil_r chunk).
  apply valid_rune with (r := r); [assumption|constructor].
Qed.

(** A non-empty valid string starts with the encoding that the decoder
    reads. *)
Lemma valid_decode (s : gostring) :
  valid s -> s <> [] ->
  exists r chunk rest,
    s = chunk ++ rest /\ enc r chunk /\ valid rest /\
    DecodeRuneInString s = (r, length chunk).
Proof.
  intros [|r chunk rest He Hv] Hne; [congruence|].
  exists r, chunk, rest. repeat split; auto using decode_enc.
Qed.

Lemma firstRune_app (a b : gostring) :
  valid a -> a <> [] -> firstRune (a ++ b) = firstRune a.
Proof.
  intros Ha Hne.
  destruct (valid_decode _ Ha Hne) as (r & chunk & rest & -> & He & _ & Hd).
  unfold firstRune. rewrite Hd, <- app_assoc.
  now rewrite (decode_enc _ _ _ He).
Qed.

(** Two valid strings that start with the same rune start with the same
    bytes. *)
Lemma valid_same_rune (a b : gostring) :
  valid a -> valid b -> a <> [] -> b <> [] ->
  firstRune a = firstRune b ->
  exists chunk a' b',
    chunk <> [] /\ a = chunk ++ a' /\ b = chunk ++ b' /\
    valid chunk /\ valid a' /\ valid b' /\
    snd (DecodeRuneInString a) = length chunk /\
    snd (DecodeRuneInString b) = length chunk.
Proof.
  intros Ha Hb Hna Hnb Hr.
  destruct (valid_decode _ Ha Hna) as (ra & ca & a' & -> & Hea & Hva & Hda).
  destruct (valid_decode _ Hb Hnb) as (rb & cb & b' & -> & Heb & Hvb & Hdb).
  unfold firstRune in Hr. rewrite Hda, Hdb in *. cbn [fst snd] in *. subst rb.
  assert (ca = cb) as <- by (eapply enc_inj; eassumption).
  exists ca, a', b'. repeat split; eauto using valid_enc.
  apply enc_length in Hea. destruct ca; cbn in *; [lia|discriminate].
Qed.

(** ** [commonPrefix] on valid strings *)

Lemma slice_from_app (pre s : gostring) :
  slice_from (pre ++ s) (length pre) = Ok s.
Proof.
  unfold slice_from. rewrite length_app.
  destruct (Nat.leb_spec (length pre) (length pre + length s)); [|lia].
  now rewrite skipn_app, skipn_all, Nat.sub_diag.
Qed.

Lemma slice_to_app (pre s : gostring) :
  slice_to (pre ++ s) (length pre) = Ok pre.
Proof.
  unfold slice_to. rewrite length_app.
  destruct (Nat.leb_spec (length pre) (length pre + length s)); [|lia].
  now rewrite firstn_app, firstn_all, Nat.sub_diag, app_nil_r.
Qed.

Lemma commonPrefix_loop_valid (fuel : nat) :
  forall (pre a' b' : gostring) (commonLen : nat),
    valid a' -> valid b' ->
    Nat.min (length a') (length b') <= fuel ->
    commonLen = Nat.min (length (pre ++ a')) (length (pre ++ b')) ->
    exists cp a'' b'',
      commonPrefix_loop fuel (pre ++ a') (pre ++ b') (length pre) commonLen
      = Ok (length (pre ++ cp)) /\ splits_at a' b' cp a'' b''.
Proof.
  induction fuel as [|fuel IH]; intros pre a' b' commonLen Ha Hb Hf Hc.
  - exists [], a', b'. cbn [commonPrefix_loop]. rewrite !length_app in Hc.
    destruct (Nat.ltb_spec (length pre) commonLen); [lia|].
    rewrite app_nil_r. split; [reflexivity|].
    repeat split; auto using valid_nil.
    destruct a'; [now left|]. destruct b'; [now right; left|]. cbn in Hf. lia.
  - cbn [commonPrefix_loop]. rewrite !length_app in Hc.
    destruct (Nat.ltb_spec (length pre) commonLen) as [Hlt|Hge].
    + assert (a' <> []) as Hna by (intros ->; cbn in Hc; lia).
      assert (b' <> []) as Hnb by (intros ->; cbn in Hc; lia).
      rewrite !slice_from_app. cbn [bind].
      destruct (DecodeRuneInString a') as [ra sza] eqn:Hda.
      destruct (DecodeRuneInString b') as [rb szb] eqn:Hdb.
      destruct (Z.eqb_spec ra rb) as [Hr|Hr]; cbn [negb].
      * destruct (valid_same_rune a' b' Ha Hb Hna Hnb)
          as (chunk & ta & tb & Hnc & -> & -> & Hvc & Hva & Hvb & Hsa & Hsb).
        { unfold firstRune. now rewrite Hda, Hdb. }
        rewrite Hdb in Hsb. cbn [snd] in Hsb. subst szb.
        destruct (IH (pre ++ chunk) ta tb commonLen Hva Hvb)
          as (cp & a'' & b'' & Hl & -> & -> & Hcp & Ha'' & Hb'' & Hd).
        { rewrite !length_app in Hf. destruct chunk; [congruence|].
          cbn [length] in Hf. lia. }
        { rewrite <- !app_assoc, !length_app. rewrite !length_app in Hc. exact Hc. }
        exists (chunk ++ cp), a'', b''.
        rewrite <- !app_assoc in Hl. rewrite length_app in Hl at 1.
        rewrite Hl. rewrite !app_assoc.
        repeat split; auto using valid_app.
      * exists [], a', b'. rewrite app_nil_r. split; [reflexivity|].
        repeat split; auto using valid_nil. right; right.
        unfold firstRune. now rewrite Hda, Hdb.
    + exists [], a', b'. rewrite app_nil_r. split; [reflexivity|].
      repeat split; auto using valid_nil.
      destruct a'; [now left|]. destruct b'; [now right; left|].
      cbn [length] in Hc. lia.
Qed.

Lemma commonPrefix_valid (a b : gostring) :
  valid a -> valid b ->
  exists cp a' b', commonPrefix a b = Ok cp /\ splits_at a b cp a' b'.
Proof.
  intros Ha Hb. unfold commonPrefix.
  destruct (commonPrefix_loop_valid
              (if length b <? length a then length b else length a)
              [] a b
              (if length b <? length a then length b else length a) Ha Hb)
    as (cp & a' & b' & Hl & Hs).
  { destruct (Nat.ltb_spec (length b) (length a)); lia. }
  { cbn [app]. destruct (Nat.ltb_spec (length b) (length a)); lia. }
  exists cp, a', b'. split; [|assumption].
  cbn [app length] in Hl. rewrite Hl. cbn [bind].
  destruct Hs as (-> & _). apply slice_to_app.
Qed.

(** ** Induction on nodes *)

Lemma node_induction (P : node -> Prop) :
  (forall p vs cs, Forall P cs -> P (Node p vs cs)) -> forall n, P n.
Proof.
  intros H. fix IH 1. intros [p vs cs]. apply H.
  induction cs as [|c cs IHcs]; constructor; [apply IH|apply IHcs].
Qed.

(** ** Lists: slices, [copy] and [store] *)

Lemma firstn_plus {A : Type} (l1 l2 : list A) (k : nat) :
  firstn (length l1 + k) (l1 ++ l2) = l1 ++ firstn k l2.
Proof. apply firstn_app_2. Qed.

Lemma skipn_plus {A : Type} (l1 l2 : list A) (k : nat) :
  skipn (length l1 + k) (l1 ++ l2) = skipn k l2.
Proof.
  rewrite skipn_app, skipn_all2 by lia.
  cbn [app]. f_equal. lia.
Qed.

Lemma firstn_len {A : Type} (l1 l2 : list A) :
  firstn (length l1) (l1 ++ l2) = l1.
Proof.
  rewrite <- (Nat.add_0_r (length l1)), firstn_plus. cbn. apply app_nil_r.
Qed.

Lemma skipn_len {A : Type} (l1 l2 : list A) :
  skipn (length l1) (l1 ++ l2) = l2.
Proof. now rewrite <- (Nat.add_0_r (length l1)), skipn_plus. Qed.

Lemma store_app {A : Type} (l1 l2 : list A) (x y : A) :
  store (l1 ++ x :: l2) (length l1) y = l1 ++ y :: l2.
Proof.
  unfold store. rewrite firstn_len.
  replace (S (length l1)) with (length l1 + 1) by lia.
  now rewrite skipn_plus.
Qed.

(** [insertChildAtIndex] at an index within the children shifts the children
    from that index on by one place and puts the new child there. *)
Lemma insertChildAtIndex_app (p : gostring) (vs : list Z)
    (l1 l2 : list node) (x c : node) :
  insertChildAtIndex (Node p vs (l1 ++ x :: l2)) c (length l1)
  = Ok (Node p vs (l1 ++ c :: x :: l2)).
Proof.
  unfold insertChildAtIndex. cbn [children prefix values].
  set (cs := l1 ++ x :: l2).
  assert (length cs = length l1 + S (length l2)) as Hlen
      by (unfold cs; now rewrite length_app).
  destruct (nth_error cs (length cs - 1)) as [l|] eqn:Hl.
  2:{ apply nth_error_None in Hl. lia. }
  rewrite !length_app. cbn [length].
  destruct (Nat.leb_spec (length l1 + 1) (length cs + 1)); [|lia].
  destruct (Nat.leb_spec (length l1) (length cs + 1 - 1)); [|lia].
  cbn [andb].
  assert (firstn (length l1 + 1) (cs ++ [l]) = l1 ++ [x]) as ->.
  { unfold cs. rewrite <- app_assoc, firstn_plus. reflexivity. }
  assert (skipn (length l1 + 1) (cs ++ [l]) = l2 ++ [l]) as ->.
  { unfold cs. rewrite <- app_assoc, skipn_plus. reflexivity. }
  assert (firstn (length cs + 1 - 1 - length l1) (skipn (length l1) (cs ++ [l]))
          = x :: l2) as ->.
  { unfold cs. rewrite <- app_assoc, skipn_len.
    replace (length (l1 ++ x :: l2) + 1 - 1 - length l1)
      with (length (x :: l2) + 0) by (rewrite length_app; cbn [length]; lia).
    rewrite firstn_plus. cbn [firstn]. apply app_nil_r. }
  assert (copy (l2 ++ [l]) (x :: l2) = x :: l2) as ->.
  { unfold copy.
    replace (length (l2 ++ [l])) with (length (x :: l2))
      by (rewrite length_app; cbn [length]; lia).
    rewrite firstn_all.
    replace (length (x :: l2)) with (length (l2 ++ [l]))
      by (rewrite length_app; cbn [length]; lia).
    rewrite skipn_all. apply app_nil_r. }
  rewrite !length_app. cbn [length].
  destruct (Nat.ltb_spec (length l1) (length l1 + 1 + S (length l2))); [|lia].
  f_equal. f_equal. rewrite <- app_assoc. cbn [app]. apply store_app.
Qed.

(** ** The insertion loop *)

Lemma add_loop_from (rec : node -> result node) (p : gostring) (vs : list Z)
    (subKey : gostring) (fr value : Z) (cs : list node) :
  forall rest pre,
    cs = pre ++ rest ->
    Forall (fun c => (child_key c < fr)%Z) pre ->
    add_loop_outcome rec p vs cs subKey fr value
      (add_loop rec (Node p vs cs) rest (length pre) subKey fr value).
Proof.
  induction rest as [|c rest IH]; intros pre Hcs Hpre; cbn [add_loop].
  - cbn [prefix values children]. rewrite Hcs, app_nil_r.
    apply outcome_insert; auto. now rewrite app_nil_r.
  - fold (child_key c). cbn [prefix values children].
    destruct (Z.eqb_spec (child_key c) fr) as [He|Hne].
    + apply outcome_descend with (l1 := pre) (l2 := rest) (c := c); auto.
      destruct (rec c) as [c'| |]; cbn [bind]; [|reflexivity..].
      now rewrite Hcs, store_app.
    + destruct (Z.gtb_spec (child_key c) fr) as [Hgt|Hle].
      * rewrite Hcs, insertChildAtIndex_app. rewrite <- Hcs.
        apply outcome_insert; auto. right. exists c, rest. split; [auto|lia].
      * replace (S (length pre)) with (length (pre ++ [c]))
          by (rewrite length_app; cbn [length]; lia).
        apply IH.
        -- now rewrite <- app_assoc.
        -- apply Forall_app. split; [assumption|]. constructor; [lia|constructor].
Qed.

(** ** Well-formed nodes and what they store *)

Lemma wf_unfold (p : gostring) (vs : list Z) (cs : list node) :
  wf (Node p vs cs) <-> valid p /\ ascending cs /\ Forall child_ok cs.
Proof.
  cbn [wf]. enough (forall l,
    (fix all (l : list node) : Prop :=
       match l with
       | [] => True
       | c :: l' => (prefix c <> [] /\ wf c) /\ all l'
       end) l <-> Forall child_ok l) as H by (rewrite H; tauto).
  induction l as [|c l IH]; [split; auto|].
  rewrite IH. split.
  - intros [Hc Hl]. now constructor.
  - intros H. inversion H; subst. auto.
Qed.

Lemma shift_shift (p q : gostring) (es : list (gostring * Z)) :
  shift p (shift q es) = shift (p ++ q) es.
Proof.
  unfold shift. rewrite map_map. apply map_ext. intros [s v]. cbn [fst snd].
  now rewrite app_assoc.
Qed.

Lemma shift_app (p : gostring) (es es' : list (gostring * Z)) :
  shift p (es ++ es') = shift p es ++ shift p es'.
Proof. apply map_app. Qed.

Lemma shift_perm (p : gostring) (es es' : list (gostring * Z)) :
  Permutation es es' -> Permutation (shift p es) (shift p es').
Proof. apply Permutation_map. Qed.

Lemma entries_split (cp a' : gostring) (vs : list Z) (cs : list node) :
  entries (Node cp [] [Node a' vs cs]) = entries (Node (cp ++ a') vs cs).
Proof.
  cbn [entries flat_map map app]. now rewrite app_nil_r, shift_shift.
Qed.

Lemma flat_map_insert_perm {A B : Type} (f : A -> list B)
    (l1 l2 : list A) (x : A) :
  Permutation (flat_map f (l1 ++ x :: l2)) (f x ++ flat_map f (l1 ++ l2)).
Proof.
  rewrite !flat_map_app. cbn [flat_map].
  rewrite !app_assoc. apply Permutation_app_tail, Permutation_app_comm.
Qed.

Lemma flat_map_replace_perm {A B : Type} (f : A -> list B)
    (l1 l2 : list A) (x y : A) (e : B) :
  Permutation (f y) (e :: f x) ->
  Permutation (flat_map f (l1 ++ y :: l2)) (e :: flat_map f (l1 ++ x :: l2)).
Proof.
  intros H. rewrite !flat_map_insert_perm.
  change (e :: f x ++ flat_map f (l1 ++ l2))
    with ((e :: f x) ++ flat_map f (l1 ++ l2)).
  now apply Permutation_app_tail.
Qed.

(** ** Ascending children *)

Lemma sorted_app (l1 l2 : list Z) :
  StronglySorted Z.lt (l1 ++ l2) <->
  StronglySorted Z.lt l1 /\ StronglySorted Z.lt l2 /\
  Forall (fun x => Forall (Z.lt x) l2) l1.
Proof.
  induction l1 as [|x l1 IH]; cbn [app].
  - split; [intros H; repeat split; auto; constructor|tauto].
  - split.
    + intros H. apply StronglySorted_inv in H as [Hs Hf].
      apply IH in Hs as (H1 & H2 & H3). apply Forall_app in Hf as [Hf1 Hf2].
      repeat split; auto; now constructor.
    + intros (H1 & H2 & H3). apply StronglySorted_inv in H1 as [H1 Hf].
      inversion H3; subst. constructor.
      * apply IH. auto.
      * apply Forall_app. auto.
Qed.

Lemma sorted_cons_gt (x y : Z) (l : list Z) :
  StronglySorted Z.lt (y :: l) -> (x < y)%Z -> Forall (Z.lt x) (y :: l).
Proof.
  intros H Hxy. apply StronglySorted_inv in H as [_ Hf].
  constructor; [assumption|].
  eapply Forall_impl; [|exact Hf]. cbn. intros; lia.
Qed.

Lemma ascending_insert (l1 l2 : list node) (x : node) :
  ascending (l1 ++ l2) ->
  Forall (fun c => (child_key c < child_key x)%Z) l1 ->
  (l2 = [] \/ exists c l2', l2 = c :: l2' /\ (child_key x < child_key c)%Z) ->
  ascending (l1 ++ x :: l2).
Proof.
  unfold ascending. rewrite !map_app. cbn [map]. rewrite !sorted_app.
  intros (H1 & H2 & H3) Hlt Hgt.
  assert (Forall (Z.lt (child_key x)) (map child_key l2)) as Hx.
  { destruct Hgt as [->|(c & l2' & -> & Hc)]; [constructor|].
    cbn [map] in *. now apply sorted_cons_gt. }
  repeat split; auto.
  - now constructor.
  - apply Forall_map. apply Forall_map in H3.
    rewrite Forall_forall in *. intros c Hc.
    constructor; [now apply Hlt|now apply H3].
Qed.

Lemma ascending_replace (l1 l2 : list node) (x y : node) :
  ascending (l1 ++ x :: l2) -> child_key y = child_key x ->
  ascending (l1 ++ y :: l2).
Proof.
  unfold ascending. rewrite !map_app. cbn [map]. now intros H ->.
Qed.

(** ** Insertion into a well-formed node *)

Lemma leaf_ok (subKey : gostring) (value : Z) :
  valid subKey -> subKey <> [] -> child_ok (Node subKey [value] []).
Proof.
  intros Hv Hne. split; [assumption|]. apply wf_unfold.
  repeat split; auto; constructor.
Qed.

Lemma entries_leaf (subKey : gostring) (value : Z) :
  entries (Node subKey [value] []) = [(subKey, value)].
Proof. cbn. now rewrite app_nil_r. Qed.

Lemma shift_cons (p s : gostring) (v : Z) (es : list (gostring * Z)) :
  shift p ((s, v) :: es) = (p ++ s, v) :: shift p es.
Proof. reflexivity. Qed.

(** The loop of [add] on the children of a well-formed node, when the
    recursive call behaves on the one child that it can reach. *)
Lemma add_loop_wf (rec : node -> result node) (p : gostring) (vs : list Z)
    (cs : list node) (subKey : gostring) (value : Z) :
  valid p -> ascending cs -> Forall child_ok cs ->
  valid subKey -> subKey <> [] ->
  (forall c, In c cs -> child_key c = firstRune subKey ->
     exists c', rec c = Ok c' /\ child_ok c' /\ child_key c' = child_key c /\
       Permutation (entries c') ((subKey, value) :: entries c)) ->
  exists cs',
    add_loop rec (Node p vs cs) cs 0 subKey (firstRune subKey) value
    = Ok (Node p vs cs') /\
    wf (Node p vs cs') /\
    Permutation (entries (Node p vs cs'))
                ((p ++ subKey, value) :: entries (Node p vs cs)).
Proof.
  intros Hp Hasc Hcs Hv Hne Hrec.
  pose proof (add_loop_from rec p vs subKey (firstRune subKey) value cs cs []
                eq_refl (Forall_nil _)) as Hout.
  cbn [length] in Hout.
  destruct Hout as [l1 l2 -> Hl1 Hl2 | l1 l2 c r -> Hl1 Hc ->].
  - eexists. split; [reflexivity|]. split.
    + apply wf_unfold. repeat split; auto.
      * apply ascending_insert; auto.
      * apply Forall_app in Hcs as [H1 H2]. apply Forall_app. split; auto.
        constructor; auto using leaf_ok.
    + cbn [entries]. rewrite !shift_app.
      rewrite Permutation_middle. apply Permutation_app_head.
      rewrite <- shift_cons.
      apply shift_perm. rewrite flat_map_insert_perm, entries_leaf.
      reflexivity.
  - destruct (Hrec c) as (c' & -> & Hok & Hk & Hperm);
      [apply in_or_app; right; now left|assumption|].
    cbn [bind]. eexists. split; [reflexivity|]. split.
    + apply wf_unfold. repeat split; auto.
      * eapply ascending_replace; eauto.
      * apply Forall_app in Hcs as [H1 H2]. inversion H2; subst.
        apply Forall_app. split; auto.
    + cbn [entries]. rewrite !shift_app.
      rewrite Permutation_middle. apply Permutation_app_head.
      rewrite <- shift_cons.
      apply shift_perm. now apply flat_map_replace_perm.
Qed.

Lemma height_child (c : node) (cs : list node) :
  In c cs -> height c <= list_max (map height cs).
Proof.
  intros Hin.
  pose proof (proj1 (list_max_le (map height cs) _) (Nat.le_refl _)) as H.
  rewrite Forall_map, Forall_forall in H. now apply H.
Qed.

Lemma ltb_length_app (cp a' : gostring) :
  (length cp <? length (cp ++ a')) = negb (length a' =? 0).
Proof.
  rewrite length_app.
  destruct (Nat.ltb_spec (length cp) (length cp + length a'));
    destruct (Nat.eqb_spec (length a') 0); cbn; lia.
Qed.

Lemma eqb_length_app (cp b' : gostring) :
  (length cp =? length (cp ++ b')) = (length b' =? 0).
Proof.
  rewrite length_app.
  destruct (Nat.eqb_spec (length cp) (length cp + length b'));
    destruct (Nat.eqb_spec (length b') 0); cbn; lia.
Qed.

(** [add] on a well-formed node with a valid, non-empty key that starts with
    the first rune of the node's label (or on a node of empty label, the
    root): it returns, the node stays well-formed and keeps its first rune,
    and what it stores is what it stored and the key with its value. *)
Lemma add_fuel_ok (fuel : nat) :
  forall (n : node) (key : gostring) (value : Z),
    wf n -> valid key -> key <> [] ->
    prefix n = [] \/ firstRune (prefix n) = firstRune key ->
    height n <= fuel ->
    exists n',
      add_fuel fuel n key value = Ok n' /\ wf n' /\
      (prefix n = [] -> prefix n' = [] /\ values n' = values n) /\
      (prefix n <> [] ->
       prefix n' <> [] /\ firstRune (prefix n') = firstRune (prefix n)) /\
      Permutation (entries n') ((key, value) :: entries n).
Proof.
  induction fuel as [|fuel IH]; intros [p vs cs] key value Hwf Hkey Hne Hfr Hh.
  { cbn [height] in Hh. lia. }
  cbn [prefix values] in *. cbn [add_fuel]. unfold add_body.
  cbn [prefix values children].
  apply wf_unfold in Hwf as (Hp & Hasc & Hcs).
  destruct (commonPrefix_valid p key Hp Hkey)
    as (cp & a' & b' & -> & -> & -> & Hcp & Ha' & Hb' & Hdiff).
  cbn [bind]. rewrite ltb_length_app.
  assert (cp ++ a' <> [] -> cp <> []) as Hcpne.
  { intros Hpne ->. cbn [app] in *.
    destruct Hfr as [?|Hfr]; [congruence|]. destruct Hdiff as [?|[?|?]]; congruence. }
  assert (cp <> [] -> firstRune cp = firstRune (cp ++ a')) as Hfrcp
      by (intros; symmetry; now apply firstRune_app).
  destruct a' as [|x a'].
  - (* no split *)
    cbn [length Nat.eqb negb bind prefix values children].
    rewrite app_nil_r in *. rewrite eqb_length_app.
    destruct b' as [|y b'].
    + cbn [length Nat.eqb]. eexists. split; [reflexivity|]. split.
      { apply wf_unfold. auto. }
      split; [intros ->; cbn in Hne; congruence|].
      split; [auto|].
      cbn [entries]. rewrite map_app, !shift_app. cbn [map].
      rewrite shift_cons, <- app_assoc. cbn [app].
      symmetry. apply Permutation_middle.
    + cbn [length Nat.eqb]. rewrite slice_from_app. cbn [bind].
      destruct (add_loop_wf (fun c => add_fuel fuel c (y :: b') value)
                  cp vs cs (y :: b') value)
        as (cs' & -> & Hwf' & Hperm); auto; [discriminate| |].
      { intros c Hin Hk.
        pose proof (proj1 (Forall_forall _ _) Hcs c Hin) as [Hcne Hcwf].
        destruct (IH c (y :: b') value) as (c' & Hc' & Hwc' & _ & Hk' & Hp');
          auto; [discriminate| |].
        { cbn [height] in Hh. pose proof (height_child c cs Hin). lia. }
        exists c'. destruct (Hk' Hcne) as [? ?].
        repeat split; auto. }
      eexists. split; [reflexivity|]. split; [assumption|]. cbn [prefix values].
      repeat split; auto.
  - (* split *)
    cbn [length Nat.eqb negb]. unfold split. cbn [prefix values children].
    rewrite slice_from_app. cbn [bind prefix values children].
    rewrite eqb_length_app.
    assert (cp <> []) as Hcp0 by (apply Hcpne; now destruct cp).
    assert (wf (Node (x :: a') vs cs)) as Hwc by (apply wf_unfold; auto).
    destruct b' as [|y b'].
    + cbn [length Nat.eqb]. eexists. split; [reflexivity|]. split.
      { apply wf_unfold. repeat split; auto.
        - repeat constructor.
        - constructor; [|constructor]. split; [discriminate|assumption]. }
      split; [intros ?; now destruct cp|]. split; [auto|].
      rewrite app_nil_r.
      change (Node cp ([] ++ [value]) [Node (x :: a') vs cs])
        with (Node cp [value] [Node (x :: a') vs cs]).
      rewrite <- entries_split. cbn [entries map app flat_map].
      rewrite !shift_cons, app_nil_r. now rewrite app_nil_r.
    + cbn [length Nat.eqb]. rewrite slice_from_app. cbn [bind].
      destruct (add_loop_wf (fun c => add_fuel fuel c (y :: b') value)
                  cp [] [Node (x :: a') vs cs] (y :: b') value)
        as (cs' & -> & Hwf' & Hperm); auto; [repeat constructor| | discriminate | |].
      { constructor; [|constructor]. split; [discriminate|assumption]. }
      { intros c [<-|[]] Hk. unfold child_key in Hk. cbn [prefix] in Hk.
        destruct Hdiff as [?|[?|?]]; congruence. }
      eexists. split; [reflexivity|]. split; [assumption|]. cbn [prefix values].
      split; [intros ?; now destruct cp|]. split; [auto|].
      now rewrite <- entries_split.
Qed.

(** ** The offsets of [range key] *)

Lemma range_from_ge (s : gostring) :
  forall i skip, Forall (fun j => i <= j) (range_from s i skip).
Proof.
  induction s as [|b t IH]; intros i skip; cbn [range_from]; [constructor|].
  destruct skip as [|k].
  - constructor; [lia|].
    eapply Forall_impl; [|apply IH]. cbn. intros; lia.
  - eapply Forall_impl; [|apply IH]. cbn. intros; lia.
Qed.

Lemma range_from_valid (s : gostring) :
  forall i skip,
    valid (skipn skip s) ->
    Forall (fun j => exists d, j = i + d /\ d < length s /\ valid (skipn d s))
           (range_from s i skip).
Proof.
  induction s as [|b t IH]; intros i skip Hv; cbn [range_from]; [constructor|].
  assert (forall k, valid (skipn k t) ->
    Forall (fun j => exists d,
              j = i + d /\ d < length (b :: t) /\ valid (skipn d (b :: t)))
           (range_from t (S i) k)) as Htail.
  { intros k Hk. eapply Forall_impl; [|apply (IH (S i) k Hk)].
    cbn beta. intros j (d & -> & Hd & Hvd).
    exists (S d). cbn [length skipn]. repeat split; auto; lia. }
  destruct skip as [|k]; [|now apply Htail].
  cbn [skipn] in Hv. constructor.
  - exists 0. cbn [skipn length]. repeat split; auto; lia.
  - apply Htail.
    destruct (valid_decode (b :: t) Hv) as (r & chunk & rest & Hs & He & Hr & Hd);
      [discriminate|].
    rewrite Hd. cbn [snd]. apply enc_length in He.
    destruct chunk as [|c chunk]; [cbn in He; lia|].
    cbn [app] in Hs. injection Hs as -> ->.
    cbn [length].
    replace (S (length chunk) - 1) with (length chunk) by lia.
    now rewrite skipn_len.
Qed.

Lemma range_valid (key : gostring) :
  valid key ->
  Forall (fun j => j < length key /\ valid (skipn j key)) (range key).
Proof.
  intros Hv. eapply Forall_impl; [|apply (range_from_valid key 0 0 Hv)].
  cbn beta. intros j (d & -> & ? & ?). auto.
Qed.

Lemma range_cons (key : gostring) :
  key <> [] -> exists offs, range key = 0 :: offs /\ Forall (fun j => 0 < j) offs.
Proof.
  destruct key as [|b t]; [congruence|]. intros _.
  unfold range. cbn [range_from]. eexists. split; [reflexivity|].
  eapply Forall_impl; [|apply range_from_ge]. cbn. intros; lia.
Qed.

(** ** Tries built by [Add] *)

Lemma Add_loop_ok (key : gostring) (value : Z) (offs : list nat) :
  forall t,
    trie_wf t ->
    Forall (fun j => j < length key /\ valid (skipn j key)) offs ->
    exists t',
      Add_loop t key value offs = Ok t' /\ trie_wf t' /\
      Permutation (entries (root t'))
                  (map (fun i => (skipn i key, value)) offs ++ entries (root t)).
Proof.
  induction offs as [|i offs IH]; intros t Ht Hoffs; cbn [Add_loop].
  - exists t. auto.
  - inversion Hoffs as [|? ? [Hi Hv] Hrest]; subst.
    unfold slice_from. destruct (Nat.leb_spec i (length key)); [|lia].
    cbn [bind]. destruct Ht as (Hwf & Hp & Hvs).
    destruct (add_fuel_ok (height (root t)) (root t) (skipn i key) value)
      as (n' & Hadd & Hwf' & Hroot & _ & Hperm); auto.
    { intros Hnil. apply (f_equal (@length _)) in Hnil.
      rewrite length_skipn in Hnil. cbn in Hnil. lia. }
    unfold add. rewrite Hadd. cbn [bind].
    destruct (Hroot Hp) as [Hp' Hvs'].
    destruct (IH {| root := n' |}) as (t' & Ht' & Hwt' & Hperm'); auto.
    { repeat split; cbn [root]; congruence. }
    exists t'. repeat split; try apply Hwt'; auto.
    rewrite Hperm'. cbn [root map app]. rewrite Hperm.
    symmetry. apply Permutation_middle.
Qed.

Lemma Add_ok (t : Trie) (key : gostring) (value : Z) :
  trie_wf t -> valid key ->
  exists t',
    Add t key value = Ok t' /\ trie_wf t' /\
    Permutation (entries (root t')) (suffixes key value ++ entries (root t)).
Proof.
  intros Ht Hv. apply Add_loop_ok; auto using range_valid.
Qed.

Lemma build_from_ok (ops : list (gostring * Z)) :
  forall t,
    trie_wf t -> valid_keys ops ->
    exists t',
      build_from t ops = Ok t' /\ trie_wf t' /\
      Permutation (entries (root t')) (all_suffixes ops ++ entries (root t)).
Proof.
  induction ops as [|[key value] ops IH]; intros t Ht Hops; cbn [build_from].
  - exists t. auto.
  - inversion Hops as [|? ? Hk Hrest]; subst. cbn [fst] in Hk.
    destruct (Add_ok t key value Ht (ValidString_valid _ Hk))
      as (t1 & -> & Ht1 & Hp1).
    cbn [bind]. destruct (IH t1 Ht1 Hrest) as (t' & Hb & Ht' & Hp').
    exists t'. repeat split; try apply Ht'; auto.
    rewrite Hp', Hp1. unfold all_suffixes. cbn [flat_map fst snd].
    rewrite <- !app_assoc. rewrite app_assoc.
    rewrite (Permutation_app_comm (flat_map _ ops)). now rewrite <- app_assoc.
Qed.

Lemma zero_wf : trie_wf zero.
Proof.
  repeat split; cbn; constructor.
Qed.

(** A sequence of [Add] calls with valid keys on the zero value returns a
    well-formed trie that stores the suffixes of the keys. *)
Lemma build_ok (ops : list (gostring * Z)) :
  valid_keys ops ->
  exists t,
    build ops = Ok t /\ trie_wf t /\
    Permutation (entries (root t)) (all_suffixes ops).
Proof.
  intros Hops.
  destruct (build_from_ok ops zero zero_wf Hops) as (t & Hb & Ht & Hp).
  exists t. repeat split; try apply Ht; auto.
  rewrite Hp. cbn. now rewrite app_nil_r.
Qed.

(** ** [HasPrefix] *)

Lemma eqb_string_true (a b : gostring) : eqb_string a b = true <-> a = b.
Proof.
  unfold eqb_string. destruct (list_eq_dec byte_eq_dec a b); split;
    congruence.
Qed.

Lemma HasPrefix_true (s q : gostring) :
  HasPrefix s q = true <-> exists r, s = q ++ r.
Proof.
  unfold HasPrefix. rewrite andb_true_iff, Nat.leb_le, eqb_string_true. split.
  - intros [_ H]. exists (skipn (length q) s).
    rewrite <- H at 1. now rewrite firstn_skipn.
  - intros [r ->]. rewrite length_app, firstn_len. split; [lia|reflexivity].
Qed.

Lemma HasPrefix_false (s q : gostring) :
  HasPrefix s q = false <-> ~ exists r, s = q ++ r.
Proof.
  rewrite <- HasPrefix_true. destruct (HasPrefix s q); split; congruence.
Qed.

Lemma HasPrefix_app (p s q : gostring) :
  HasPrefix (p ++ s) (p ++ q) = HasPrefix s q.
Proof.
  destruct (HasPrefix s q) eqn:H.
  - apply HasPrefix_true in H as [r ->]. apply HasPrefix_true.
    exists r. now rewrite app_assoc.
  - apply HasPrefix_false. apply HasPrefix_false in H.
    intros [r Hr]. apply H. exists r.
    rewrite <- app_assoc in Hr. now apply app_inv_head in Hr.
Qed.

Lemma HasPrefix_refl (s : gostring) : HasPrefix s s = true.
Proof. apply HasPrefix_true. exists []. now rewrite app_nil_r. Qed.

(** ** [collectValues] *)

Lemma map_snd_shift (p : gostring) (es : list (gostring * Z)) :
  map snd (shift p es) = map snd es.
Proof. unfold shift. rewrite map_map. reflexivity. Qed.

Lemma collectValues_entries (n : node) :
  forall dst, collectValues n dst = dst ++ map snd (entries n).
Proof.
  induction n as [p vs cs IH] using node_induction. intros dst.
  cbn [collectValues entries]. rewrite map_snd_shift, map_app, map_map.
  cbn [snd]. rewrite map_id, app_assoc.
  generalize (dst ++ vs) as acc. clear dst.
  induction IH as [|c cs Hc Hcs IHcs]; intros acc; cbn [fold_left flat_map].
  - now rewrite app_nil_r.
  - rewrite IHcs, Hc, map_app. now rewrite app_assoc.
Qed.

(** ** The binary search of [find] *)

Lemma ascending_split (l1 l2 : list node) (c : node) :
  ascending (l1 ++ c :: l2) ->
  Forall (fun d => (child_key d < child_key c)%Z) l1 /\
  Forall (fun d => (child_key c < child_key d)%Z) l2.
Proof.
  unfold ascending. rewrite map_app. cbn [map]. rewrite sorted_app.
  intros (_ & H2 & H3). apply StronglySorted_inv in H2 as [_ H2].
  rewrite Forall_map in H2, H3. split; [|assumption].
  eapply Forall_impl; [|exact H3]. cbn beta. intros d Hd.
  now inversion Hd.
Qed.

Lemma ascending_index (l1 l2 : list node) (c d : node) (m : nat) :
  ascending (l1 ++ c :: l2) ->
  nth_error (l1 ++ c :: l2) m = Some d ->
  ((child_key d < child_key c)%Z <-> m < length l1).
Proof.
  intros Hasc Hm. apply ascending_split in Hasc as [H1 H2].
  rewrite Forall_forall in H1, H2.
  destruct (Nat.lt_ge_cases m (length l1)) as [Hlt|Hge].
  - rewrite nth_error_app1 in Hm by assumption.
    apply nth_error_In in Hm. specialize (H1 d Hm). tauto.
  - rewrite nth_error_app2 in Hm by assumption.
    destruct (m - length l1) as [|k] eqn:Hk; cbn [nth_error] in Hm.
    + injection Hm as <-. lia.
    + apply nth_error_In in Hm. specialize (H2 d Hm). lia.
Qed.

Lemma search_loop_found (l1 l2 : list node) (c : node) (fuel : nat) :
  ascending (l1 ++ c :: l2) ->
  forall lo hi,
    lo <= length l1 <= hi -> hi <= length (l1 ++ c :: l2) ->
    hi - lo <= fuel ->
    search_loop fuel (l1 ++ c :: l2) (child_key c) lo hi = Ok (length l1).
Proof.
  intros Hasc. induction fuel as [|fuel IH]; intros lo hi Hk Hhi Hf;
    cbn [search_loop].
  - destruct (Nat.ltb_spec lo hi); [lia|]. f_equal. lia.
  - destruct (Nat.ltb_spec lo hi) as [Hlt|Hge]; [|f_equal; lia].
    assert ((hi - lo) / 2 < hi - lo) as Hmid by (apply Nat.div_lt; lia).
    destruct (nth_error (l1 ++ c :: l2) (lo + (hi - lo) / 2)) as [d|] eqn:Hd.
    2:{ apply nth_error_None in Hd. lia. }
    fold (child_key d).
    pose proof (ascending_index l1 l2 c d _ Hasc Hd) as Hidx.
    destruct (Z.ltb_spec (child_key d) (child_key c)).
    + apply IH; lia.
    + apply IH; lia.
Qed.

Lemma find_unfold (p : gostring) (vs : list Z) (cs : list node)
    (dst : list Z) (pfx : gostring) :
  find (Node p vs cs) dst pfx =
  if HasPrefix p pfx then Ok (collectValues (Node p vs cs) dst)
  else
    subPrefix <- slice_from pfx (length p) ;;
    lo <- search_loop (length cs) cs (firstRune subPrefix) 0 (length cs) ;;
    if length cs <=? lo then Ok dst
    else
      match nth_error cs lo with
      | None => Panic
      | Some c =>
        if negb (child_key c =? firstRune subPrefix)%Z then Ok dst
        else find c dst subPrefix
      end.
Proof.
  cbn [find]. destruct (HasPrefix p pfx); [reflexivity|].
  destruct (slice_from pfx (length p)) as [sub| |]; cbn [bind]; try reflexivity.
  destruct (search_loop _ _ _ _ _) as [lo| |]; cbn [bind]; try reflexivity.
  destruct (length cs <=? lo); [reflexivity|].
  rewrite nth_error_map. destruct (nth_error cs lo); reflexivity.
Qed.

(** ** Lookup of a stored string *)

Lemma filter_all {A : Type} (f : A -> bool) (l : list A) :
  (forall x, In x l -> f x = true) -> filter f l = l.
Proof.
  induction l as [|x l IH]; intros H; cbn [filter]; [reflexivity|].
  rewrite (H x) by now left. f_equal. apply IH. intros; apply H. now right.
Qed.

Lemma filter_none {A : Type} (f : A -> bool) (l : list A) :
  (forall x, In x l -> f x = false) -> filter f l = [].
Proof.
  induction l as [|x l IH]; intros H; cbn [filter]; [reflexivity|].
  rewrite (H x) by now left. apply IH. intros; apply H. now right.
Qed.

Lemma filter_shift (p q : gostring) (es : list (gostring * Z)) :
  filter (matches (p ++ q)) (shift p es) = shift p (filter (matches q) es).
Proof.
  induction es as [|[s v] es IH]; [reflexivity|].
  rewrite shift_cons. cbn [filter].
  replace (matches (p ++ q) (p ++ s, v)) with (matches q (s, v))
    by (unfold matches; cbn [fst]; now rewrite HasPrefix_app).
  destruct (matches q (s, v)); rewrite ?shift_cons, IH; reflexivity.
Qed.

Lemma in_shift (p q : gostring) (v : Z) (es : list (gostring * Z)) :
  In (q, v) (shift p es) -> exists q0, q = p ++ q0 /\ In (q0, v) es.
Proof.
  unfold shift. rewrite in_map_iff. intros ([s w] & [= <- <-] & Hin).
  now exists s.
Qed.

(** Every string that a node stores starts with the node's label. *)
Lemma entries_prefix (n : node) (e : gostring * Z) :
  In e (entries n) -> exists s, fst e = prefix n ++ s.
Proof.
  destruct n as [p vs cs]. destruct e as [q v]. cbn [entries prefix fst].
  intros H. apply in_shift in H as (q0 & -> & _). now exists q0.
Qed.

(** The strings stored under a child do not start with a string that starts
    with another first rune. *)
Lemma other_child_no_match (c : node) (pc q1 : gostring) :
  child_ok c -> valid pc -> pc <> [] -> firstRune pc <> child_key c ->
  forall e, In e (entries c) -> matches (pc ++ q1) e = false.
Proof.
  intros [Hne Hwf] Hpc Hpcne Hk e He. unfold matches.
  apply HasPrefix_false. intros [r Hr].
  apply entries_prefix in He as [s Hs]. rewrite Hs in Hr.
  assert (valid (prefix c)) as Hv
      by (destruct c; now apply wf_unfold in Hwf).
  apply Hk. unfold child_key.
  rewrite <- (firstRune_app (prefix c) s Hv Hne), Hr, <- app_assoc.
  now rewrite firstRune_app.
Qed.

(** [find] of a string that the node stores returns, appended to [dst], the
    values of the stored strings that start with it, in the order of
    [collectValues]. *)
Lemma find_stored (n : node) :
  wf n ->
  forall dst q v0,
    In (q, v0) (entries n) ->
    find n dst q = Ok (dst ++ map snd (filter (matches q) (entries n))).
Proof.
  induction n as [p vs cs IH] using node_induction.
  intros Hwf dst q v0 Hin. rewrite find_unfold.
  apply wf_unfold in Hwf as (Hp & Hasc & Hcs).
  cbn [entries] in Hin. apply in_shift in Hin as (q0 & -> & Hin).
  destruct q0 as [|y q0].
  - rewrite app_nil_r, HasPrefix_refl. rewrite collectValues_entries.
    rewrite filter_all; [reflexivity|].
    intros e He. apply entries_prefix in He as [s Hs]. unfold matches.
    apply HasPrefix_true. now exists s.
  - assert (HasPrefix p (p ++ y :: q0) = false) as ->.
    { apply HasPrefix_false. intros [r Hr].
      apply (f_equal (@length _)) in Hr. rewrite !length_app in Hr.
      cbn [length] in Hr. lia. }
    rewrite slice_from_app. cbn [bind].
    apply in_app_or in Hin as [Hin|Hin].
    { apply in_map_iff in Hin as (? & [=] & _). }
    apply in_flat_map in Hin as (c & Hc & Hin).
    pose proof (proj1 (Forall_forall _ _) Hcs c Hc) as [Hcne Hcwf].
    assert (valid (prefix c)) as Hcv
        by (destruct c; now apply wf_unfold in Hcwf).
    pose proof (entries_prefix _ _ Hin) as [q1 Hq1]. cbn [fst] in Hq1.
    assert (firstRune (y :: q0) = child_key c) as Hfr
        by (rewrite Hq1; now apply firstRune_app).
    apply in_split in Hc as (l1 & l2 & ->).
    rewrite Hfr, search_loop_found; auto;
      [|rewrite ?length_app; cbn [length]; lia..].
    cbn [bind]. rewrite length_app. cbn [length].
    destruct (Nat.leb_spec (length l1 + S (length l2)) (length l1)); [lia|].
    rewrite nth_error_app2, Nat.sub_diag by lia. cbn [nth_error].
    rewrite Z.eqb_refl. cbn [negb].
    apply Forall_app in IH as [_ IH]. inversion IH as [|? ? IHc _]; subst.
    rewrite (IHc Hcwf dst (y :: q0) v0 Hin).
    f_equal. f_equal.
    cbn [entries]. rewrite filter_shift, map_snd_shift, filter_app.
    rewrite (filter_none (matches (y :: q0)) (map _ vs)).
    2:{ intros e He. apply in_map_iff in He as (v & <- & _). reflexivity. }
    cbn [app]. rewrite !flat_map_app, !filter_app. cbn [flat_map].
    rewrite filter_app.
    apply ascending_split in Hasc as [H1 H2].
    apply Forall_app in Hcs as [Hcs1 Hcs2].
    inversion Hcs2 as [|? ? _ Hcs2']; subst.
    rewrite Forall_forall in H1, H2, Hcs1, Hcs2'.
    rewrite !(filter_none (matches (y :: q0)) (flat_map entries _)).
    + now rewrite app_nil_r.
    + intros e He. apply in_flat_map in He as (d & Hd & He).
      rewrite Hq1. apply (other_child_no_match d); auto.
      specialize (H2 d Hd). fold (child_key c). lia.
    + intros e He. apply in_flat_map in He as (d & Hd & He).
      rewrite Hq1. apply (other_child_no_match d); auto.
      specialize (H1 d Hd). fold (child_key c). lia.
Qed.

(** ** Substring completeness and the full-key round trip *)

Lemma build_stores (ops : list (gostring * Z)) (t : Trie) :
  valid_keys ops -> build ops = Ok t ->
  trie_wf t /\ Permutation (entries (root t)) (all_suffixes ops).
Proof.
  intros Hops Hb. destruct (build_ok ops Hops) as (t' & Hb' & Hwf & Hp).
  rewrite Hb in Hb'. injection Hb' as <-. auto.
Qed.

Lemma suffix_stored (ops : list (gostring * Z)) (k : gostring) (v : Z)
    (j : nat) :
  In (k, v) ops -> In j (range k) -> In (skipn j k, v) (all_suffixes ops).
Proof.
  intros Hin Hj. unfold all_suffixes. apply in_flat_map.
  exists (k, v). split; [assumption|]. unfold suffixes. cbn [fst snd].
  apply in_map_iff. now exists j.
Qed.

(** C1 (substring completeness): in a trie built from the zero value by
    [Add] calls with valid keys, for every added key [k] with value [v] and
    every offset [j] at which a rune of [k] starts, [k[j:]] is in range and
    [Find(nil, k[j:])] returns a result that contains [v]. *)
Theorem substring_completeness (ops : list (gostring * Z)) (t : Trie)
    (k : gostring) (v : Z) (j : nat) :
  valid_keys ops -> build ops = Ok t ->
  In (k, v) ops -> In j (range k) ->
  exists sub res,
    slice_from k j = Ok sub /\ Find t [] sub = Ok res /\ In v res.
Proof.
  intros Hops Hb Hin Hj.
  destruct (build_stores ops t Hops Hb) as [(Hwf & _ & _) Hperm].
  assert (valid k) as Hk.
  { apply ValidString_valid.
    apply (proj1 (Forall_forall _ _) Hops (k, v) Hin). }
  pose proof (proj1 (Forall_forall _ _) (range_valid k Hk) j Hj) as [Hlt _].
  exists (skipn j k). eexists. split; [|split].
  - unfold slice_from. destruct (Nat.leb_spec j (length k)); [reflexivity|lia].
  - unfold Find. apply (find_stored (root t) Hwf [] (skipn j k) v).
    apply (Permutation_in _ (Permutation_sym Hperm)).
    now apply suffix_stored.
  - cbn [app]. apply in_map_iff. exists (skipn j k, v). split; [reflexivity|].
    apply filter_In. split.
    + apply (Permutation_in _ (Permutation_sym Hperm)). now apply suffix_stored.
    + apply HasPrefix_refl.
Qed.

(** Completeness on the package example: "ogle.com" finds the value 0. *)
Lemma substring_completeness_witness :
  exists sub res,
    slice_from (str "www.google.com") 6 = Ok sub /\
    Find ex_trie [] sub = Ok res /\ In 0%Z res.
Proof.
  apply (substring_completeness ex_ops ex_trie (str "www.google.com") 0 6).
  - repeat constructor.
  - reflexivity.
  - now left.
  - vm_compute. tauto.
Defined.

Lemma filter_perm {A : Type} (f : A -> bool) (l l' : list A) :
  Permutation l l' -> Permutation (filter f l) (filter f l').
Proof.
  induction 1 as [|x l l' H IH|x y l|l l' l'' H1 IH1 H2 IH2]; cbn [filter].
  - constructor.
  - destruct (f x); [now constructor|assumption].
  - destruct (f x), (f y); try reflexivity. constructor.
  - now transitivity (filter f l').
Qed.

(** The values stored for the operations [ops] do not contain a value that
    no operation has. *)
Lemma all_suffixes_values (ops : list (gostring * Z)) (e : gostring * Z) :
  In e (all_suffixes ops) -> In (snd e) (map snd ops).
Proof.
  unfold all_suffixes, suffixes. rewrite in_flat_map.
  intros ([k v] & Hkv & He). cbn [fst snd] in He.
  apply in_map_iff in He as (i & <- & _). cbn [snd].
  apply in_map_iff. now exists (k, v).
Qed.

Lemma other_values_absent (ops : list (gostring * Z)) (k : gostring) (v : Z) :
  ~ In v (map snd ops) ->
  count_occ Z.eq_dec (map snd (filter (matches k) (all_suffixes ops))) v = 0.
Proof.
  intros Hv. apply count_occ_not_In. intros H.
  apply in_map_iff in H as (e & He & H).
  apply filter_In in H as [H _]. apply all_suffixes_values in H.
  now rewrite He in H.
Qed.

(** Of the suffixes of a non-empty key, the key alone starts with the key. *)
Lemma suffixes_matching (k : gostring) (v : Z) :
  k <> [] -> map snd (filter (matches k) (suffixes k v)) = [v].
Proof.
  intros Hne. destruct (range_cons k Hne) as (offs & Hr & Hoffs).
  unfold suffixes. rewrite Hr. cbn [map filter skipn].
  unfold matches at 1. cbn [fst]. rewrite HasPrefix_refl. cbn [map snd].
  f_equal. rewrite filter_none; [reflexivity|].
  intros e He. apply in_map_iff in He as (i & <- & Hi).
  rewrite Forall_forall in Hoffs. specialize (Hoffs i Hi).
  unfold matches. cbn [fst]. apply HasPrefix_false. intros [r Hr'].
  apply (f_equal (@length _)) in Hr'.
  rewrite length_skipn, length_app in Hr'.
  destruct k; [congruence|]. cbn [length] in Hr'. lia.
Qed.

(** C2 as amended (full-key round trip): in a trie built by [Add] calls
    with valid keys and pairwise distinct values, for every non-empty added
    key [k] with value [v], [Find(nil, k)] returns a result that contains
    [v] exactly once. *)
Theorem full_key_round_trip (ops : list (gostring * Z)) (t : Trie)
    (k : gostring) (v : Z) :
  valid_keys ops -> NoDup (map snd ops) -> build ops = Ok t ->
  In (k, v) ops -> k <> [] ->
  exists res, Find t [] k = Ok res /\ count_occ Z.eq_dec res v = 1.
Proof.
  intros Hops Hnd Hb Hin Hne.
  destruct (build_stores ops t Hops Hb) as [(Hwf & _ & _) Hperm].
  destruct (range_cons k Hne) as (offs & Hr & _).
  assert (In (k, v) (all_suffixes ops)) as Hst.
  { change k with (skipn 0 k) at 1. apply suffix_stored; auto.
    rewrite Hr. now left. }
  eexists. split.
  - unfold Find. apply (find_stored (root t) Hwf [] k v).
    apply (Permutation_in _ (Permutation_sym Hperm)). exact Hst.
  - cbn [app].
    rewrite (proj1 (Permutation_count_occ Z.eq_dec _ _)
               (Permutation_map snd (filter_perm (matches k) _ _ Hperm)) v).
    apply in_split in Hin as (l1 & l2 & ->).
    rewrite map_app in Hnd. cbn [map snd] in Hnd.
    apply NoDup_remove_2 in Hnd.
    unfold all_suffixes. rewrite flat_map_app. cbn [flat_map fst snd].
    rewrite !filter_app, !map_app, !count_occ_app.
    rewrite suffixes_matching by assumption.
    fold (all_suffixes l1). fold (all_suffixes l2).
    rewrite !other_values_absent
      by (intros H; apply Hnd, in_or_app; auto).
    cbn [count_occ]. destruct (Z.eq_dec v v); [reflexivity|congruence].
Qed.

(** The round trip on the package example. *)
Lemma full_key_round_trip_witness :
  exists res,
    Find ex_trie [] (str "www.foogle.net") = Ok res /\
    count_occ Z.eq_dec res 1%Z = 1.
Proof.
  apply (full_key_round_trip ex_ops ex_trie (str "www.foogle.net") 1).
  - repeat constructor.
  - repeat constructor; cbn; intuition discriminate.
  - reflexivity.
  - right. now left.
  - discriminate.
Defined.

(** C2 as stated fails on the empty key: [Add("", 7)] stores nothing, so
    [Find(nil, "")] does not contain 7. *)
Lemma full_key_round_trip_empty_key :
  ~ (forall (ops : list (gostring * Z)) (t : Trie) (k : gostring) (v : Z),
        valid_keys ops -> NoDup (map snd ops) -> build ops = Ok t ->
        In (k, v) ops ->
        exists res, Find t [] k = Ok res /\ count_occ Z.eq_dec res v = 1).
Proof.
  intros H.
  destruct (H [([], 7%Z)] zero [] 7%Z) as (res & Hf & Hc).
  - repeat constructor.
  - repeat constructor. intros [].
  - reflexivity.
  - now left.
  - vm_compute in Hf. injection Hf as <-. discriminate.
Qed.

(** ** Queries that diverge from a label *)

(** C3 (code bug): [Find] does not complete on every query.  After
    [Add("1234567", 1)] on the zero value, [Find(nil, "1245")] reaches the
    child labelled "1234567", which does not have the query as a prefix, and
    evaluates [prefix[len(n.prefix):]] with 7 > len("1245"): the slice
    expression is out of range and the call panics, where the claim (and the
    repository's test "partial match") expects the empty result. *)
Theorem Find_partial_match_panics :
  exists t,
    build [(str "1234567", 1%Z)] = Ok t /\
    Find t [] (str "1245") = Panic.
Proof. eexists. split; vm_compute; reflexivity. Qed.

(** C4 (code bug): [Find] has no check that the label of a node is a prefix
    of the query.  The scenario of the claim does not return the empty
    result (it panics, see C3), and a query that diverges from a label and
    is longer than it is answered with the values below the label: after
    [Add("abX", 1)] and [Add("abY", 2)], [Find(nil, "azX")] returns [[1]]
    although "azX" is a prefix of no inserted suffix. *)
Theorem Find_false_positive :
  (exists t,
     build [(str "1234567", 1%Z)] = Ok t /\
     Find t [] (str "1245") <> Ok []) /\
  (exists t,
     build [(str "abX", 1%Z); (str "abY", 2%Z)] = Ok t /\
     Forall (fun e => HasPrefix (fst e) (str "azX") = false)
            (all_suffixes [(str "abX", 1%Z); (str "abY", 2%Z)]) /\
     Find t [] (str "azX") = Ok [1%Z]).
Proof.
  split; eexists; (split; [vm_compute; reflexivity|]).
  - vm_compute. discriminate.
  - split; [|vm_compute; reflexivity]. vm_compute. repeat constructor.
Qed.

(** ** The empty key and the empty prefix *)

(** The empty key has no rune, so the loop of [Add] has no iteration. *)
Lemma Add_empty (t : Trie) (v : Z) : Add t [] v = Ok t.
Proof. reflexivity. Qed.

(** C5 as amended (empty key): for every trie and every value [v],
    [Add("", v)] does not fail and is a no-op: it returns the trie as it
    was, inserts nothing and does not tag the root, so every later [Find]
    returns what it returned before. *)
Theorem Add_empty_key_noop (t : Trie) (v : Z) :
  Add t [] v = Ok t /\
  forall dst pfx,
    (t' <- Add t [] v ;; Find t' dst pfx) = Find t dst pfx.
Proof. split; reflexivity. Qed.

(** C5 as stated fails: after [Add("", 7)] on the zero value, [Find] for the
    empty prefix returns the empty result, which does not include 7. *)
Lemma Add_empty_key_not_found :
  ~ (forall (t : Trie) (v : Z),
        exists t' res,
          Add t [] v = Ok t' /\ Find t' [] [] = Ok res /\ In v res).
Proof.
  intros H. destruct (H zero 7%Z) as (t' & res & Ha & Hf & Hin).
  vm_compute in Ha. injection Ha as <-.
  vm_compute in Hf. injection Hf as <-. destruct Hin.
Qed.

(** C8 as amended (empty prefix returns everything): in a trie built by
    [Add] calls with valid keys, [Find(nil, "")] returns the values of the
    whole trie in the order of [collectValues], a function of the trie alone
    (so repeated calls return the same sequence), and it contains every
    value that was passed to [Add] with a non-empty key. *)
Theorem Find_empty_prefix (ops : list (gostring * Z)) (t : Trie)
    (k : gostring) (v : Z) :
  valid_keys ops -> build ops = Ok t -> In (k, v) ops -> k <> [] ->
  Find t [] [] = Ok (collectValues (root t) []) /\
  In v (collectValues (root t) []).
Proof.
  intros Hops Hb Hin Hne.
  destruct (build_stores ops t Hops Hb) as [(Hwf & Hp & _) Hperm].
  split.
  - unfold Find. destruct (root t) as [p vs cs]. cbn [prefix] in Hp. subst p.
    now rewrite find_unfold.
  - rewrite collectValues_entries. cbn [app].
    apply in_map_iff. exists (k, v). split; [reflexivity|].
    apply (Permutation_in _ (Permutation_sym Hperm)).
    destruct (range_cons k Hne) as (offs & Hr & _).
    change k with (skipn 0 k) at 1. apply suffix_stored; auto.
    rewrite Hr. now left.
Qed.

(** The empty prefix on the package example. *)
Lemma Find_empty_prefix_witness :
  Find ex_trie [] [] = Ok (collectValues (root ex_trie) []) /\
  In 1%Z (collectValues (root ex_trie) []).
Proof.
  apply (Find_empty_prefix ex_ops ex_trie (str "www.foogle.net") 1).
  - repeat constructor.
  - reflexivity.
  - right. now left.
  - discriminate.
Defined.

(** C8 as stated fails: the value passed to [Add] with the empty key is not
    returned by [Find(nil, "")]. *)
Lemma Find_empty_prefix_misses_empty_key :
  ~ (forall (ops : list (gostring * Z)) (t : Trie) (k : gostring) (v : Z),
        valid_keys ops -> build ops = Ok t -> In (k, v) ops ->
        exists res, Find t [] [] = Ok res /\ In v res).
Proof.
  intros H.
  destruct (H [([], 7%Z)] zero [] 7%Z) as (res & Hf & Hin).
  - repeat constructor.
  - reflexivity.
  - now left.
  - vm_compute in Hf. injection Hf as <-. destruct Hin.
Qed.

(** ** The root *)

Lemma commonPrefix_nil (key : gostring) : commonPrefix [] key = Ok [].
Proof.
  unfold commonPrefix. cbn [length].
  destruct (Nat.ltb_spec (length key) 0); [lia|].
  destruct key; reflexivity.
Qed.

Lemma add_loop_keeps (rec : node -> result node) (p : gostring) (vs : list Z)
    (cs : list node) (subKey : gostring) (fr value : Z) (n' : node) :
  add_loop rec (Node p vs cs) cs 0 subKey fr value = Ok n' ->
  prefix n' = p /\ values n' = vs.
Proof.
  pose proof (add_loop_from rec p vs subKey fr value cs cs [] eq_refl
                (Forall_nil _)) as Hout.
  cbn [length] in Hout.
  destruct Hout as [l1 l2 _ _ _ | l1 l2 c r _ _ _ ->].
  - intros [= <-]. auto.
  - destruct (rec c); cbn [bind]; [|discriminate..]. intros [= <-]. auto.
Qed.

(** [add] on a node of empty label, with a non-empty key, leaves the label
    and the values of the node as they are. *)
Lemma add_root_keeps (fuel : nat) (n n' : node) (key : gostring) (value : Z) :
  prefix n = [] -> key <> [] ->
  add_fuel fuel n key value = Ok n' ->
  prefix n' = [] /\ values n' = values n.
Proof.
  destruct fuel as [|fuel]; [discriminate|].
  destruct n as [p vs cs]. cbn [prefix values]. intros -> Hne.
  cbn [add_fuel]. unfold add_body. cbn [prefix].
  rewrite commonPrefix_nil. cbn [bind length Nat.ltb Nat.leb].
  destruct key as [|b key]; [congruence|].
  cbn [length Nat.eqb prefix values children].
  unfold slice_from. cbn [length Nat.leb skipn bind].
  apply add_loop_keeps.
Qed.

Lemma range_from_lt (s : gostring) :
  forall i skip, Forall (fun j => j < i + length s) (range_from s i skip).
Proof.
  induction s as [|b t IH]; intros i skip; cbn [range_from]; [constructor|].
  cbn [length]. destruct skip as [|k].
  - constructor; [lia|].
    eapply Forall_impl; [|apply IH]. cbn beta. intros; lia.
  - eapply Forall_impl; [|apply IH]. cbn beta. intros; lia.
Qed.

Lemma Add_loop_root (key : gostring) (value : Z) (offs : list nat) :
  forall t t',
    Forall (fun j => j < length key) offs ->
    prefix (root t) = [] /\ values (root t) = [] ->
    Add_loop t key value offs = Ok t' ->
    prefix (root t') = [] /\ values (root t') = [].
Proof.
  induction offs as [|i offs IH]; intros t t' Hoffs Ht; cbn [Add_loop].
  - now intros [= <-].
  - inversion Hoffs as [|? ? Hi Hrest]; subst.
    unfold slice_from. destruct (Nat.leb_spec i (length key)); [|lia].
    cbn [bind]. destruct (add (root t) (skipn i key) value) as [r| |] eqn:Ha;
      cbn [bind]; [|discriminate..].
    apply IH; [assumption|]. cbn [root].
    destruct Ht as [Hp Hv]. unfold add in Ha.
    apply add_root_keeps in Ha as [Hp' Hv']; [split; congruence|assumption|].
    intros Hnil. apply (f_equal (@length _)) in Hnil.
    rewrite length_skipn in Hnil. cbn [length] in Hnil. lia.
Qed.

Lemma build_from_root (ops : list (gostring * Z)) :
  forall t t',
    prefix (root t) = [] /\ values (root t) = [] ->
    build_from t ops = Ok t' ->
    prefix (root t') = [] /\ values (root t') = [].
Proof.
  induction ops as [|[key value] ops IH]; intros t t' Ht; cbn [build_from].
  - now intros [= <-].
  - destruct (Add t key value) as [t1| |] eqn:Ha; cbn [bind]; [|discriminate..].
    apply IH. unfold Add in Ha.
    apply (Add_loop_root key value (range key) t t1); auto.
    exact (range_from_lt key 0 0).
Qed.

(** C10 (root invariant): in every trie that a sequence of [Add] calls
    returns from the zero value, whatever the keys, the label of the root is
    the empty string and the root has no value: [collectValues] on the root
    yields the values of its children only. *)
Theorem root_invariant (ops : list (gostring * Z)) (t : Trie) :
  build ops = Ok t ->
  prefix (root t) = [] /\ values (root t) = [] /\
  forall dst,
    collectValues (root t) dst
    = fold_left (fun dst c => collectValues c dst) (children (root t)) dst.
Proof.
  intros Hb.
  destruct (build_from_root ops zero t (conj eq_refl eq_refl) Hb) as [Hp Hv].
  repeat split; auto. intros dst.
  destruct (root t) as [p vs cs]. cbn [values] in Hv. subst vs.
  cbn [collectValues children]. now rewrite app_nil_r.
Qed.

(** The root of the trie of the package example. *)
Lemma root_invariant_witness :
  prefix (root ex_trie) = [] /\ values (root ex_trie) = [] /\
  forall dst,
    collectValues (root ex_trie) dst
    = fold_left (fun dst c => collectValues c dst)
                (children (root ex_trie)) dst.
Proof.
  apply (root_invariant ex_ops ex_trie). vm_compute. reflexivity.
Defined.

(** ** The output buffer *)

Lemma collectValues_app (n : node) (dst : list Z) :
  collectValues n dst = dst ++ collectValues n [].
Proof. now rewrite (collectValues_entries n dst), (collectValues_entries n []). Qed.

(** [find] with a buffer is [find] without one, appended to the buffer. *)
Lemma find_dst (n : node) :
  forall dst q, find n dst q = (ms <- find n [] q ;; Ok (dst ++ ms)).
Proof.
  induction n as [p vs cs IH] using node_induction. intros dst q.
  rewrite !find_unfold.
  destruct (HasPrefix p q).
  { cbn [bind]. now rewrite collectValues_app. }
  destruct (slice_from q (length p)) as [sub| |]; cbn [bind]; try reflexivity.
  destruct (search_loop _ _ _ _ _) as [lo| |]; cbn [bind]; try reflexivity.
  destruct (length cs <=? lo); cbn [bind]; [now rewrite app_nil_r|].
  destruct (nth_error cs lo) as [c|] eqn:Hc; [|reflexivity].
  destruct (negb _); cbn [bind]; [now rewrite app_nil_r|].
  apply nth_error_In in Hc. rewrite Forall_forall in IH. now apply IH.
Qed.

(** Whenever [Find(nil, prefix)] returns the values [ms], [Find(dst, prefix)]
    returns the contents of [dst] followed by [ms], and [dst] itself when
    [ms] is empty. *)
Lemma Find_buffer_prefix (t : Trie) (dst : list Z) (pfx : gostring)
    (ms : list Z) :
  Find t [] pfx = Ok ms ->
  Find t dst pfx = Ok (dst ++ ms) /\ (ms = [] -> Find t dst pfx = Ok dst).
Proof.
  unfold Find. intros H. rewrite (find_dst (root t) dst pfx), H. cbn [bind].
  split; [reflexivity|]. intros ->. now rewrite app_nil_r.
Qed.

(** C7 (code bug): [Find] does not return [dst] as it is for every prefix
    with zero matches.  After [Add("abX", 1)] and [Add("abY", 2)] on the zero
    value no inserted suffix starts with "azX", and [Find([7], "azX")]
    returns [[7; 1]]: the value 1 is appended to the buffer.  After
    [Add("1234567", 1)] no inserted suffix starts with "1245", and
    [Find([7], "1245")] panics.  The comment of [Find] ("If no matching
    values are found, dst will be returned as is") and the claim expect
    [[7]] from both calls.  The defect is that of C3 and C4: [find] does not
    compare the label of a node with the query. *)
Theorem Find_no_match_alters_buffer :
  (exists t,
     build [(str "abX", 1%Z); (str "abY", 2%Z)] = Ok t /\
     Forall (fun e => matches (str "azX") e = false)
            (all_suffixes [(str "abX", 1%Z); (str "abY", 2%Z)]) /\
     Find t [7%Z] (str "azX") = Ok [7%Z; 1%Z]) /\
  (exists t,
     build [(str "1234567", 1%Z)] = Ok t /\
     Forall (fun e => matches (str "1245") e = false)
            (all_suffixes [(str "1234567", 1%Z)]) /\
     Find t [7%Z] (str "1245") = Panic).
Proof.
  split; eexists; (split; [vm_compute; reflexivity|]);
    (split; [vm_compute; repeat constructor|vm_compute; reflexivity]).
Qed.

(** ** The invariants of the children *)

Lemma every_node_unfold (P : node -> Prop) (n : node) :
  every_node P n <-> P n /\ Forall (every_node P) (children n).
Proof.
  destruct n as [p vs cs]. cbn [every_node children].
  enough (forall l,
    (fix all (l : list node) : Prop :=
       match l with
       | [] => True
       | c :: l' => every_node P c /\ all l'
       end) l <-> Forall (every_node P) l) as H by (rewrite H; tauto).
  induction l as [|c l IH]; [split; auto|].
  rewrite IH. split.
  - intros [Hc Hl]. now constructor.
  - intros H. inversion H; subst. auto.
Qed.

Lemma sorted_NoDup (l : list Z) : StronglySorted Z.lt l -> NoDup l.
Proof.
  induction 1 as [|x l Hs IH Hf]; constructor; [|assumption].
  intros Hin. rewrite Forall_forall in Hf. specialize (Hf x Hin). lia.
Qed.

Lemma ascending_distinct (cs : list node) (i j : nat) (ci cj : node) :
  ascending cs -> i <> j ->
  nth_error cs i = Some ci -> nth_error cs j = Some cj ->
  child_key ci <> child_key cj.
Proof.
  intros Hasc Hij Hi Hj Hk.
  destruct (nth_error_split _ _ Hi) as (l1 & l2 & -> & Hl1).
  pose proof (ascending_index l1 l2 ci cj j Hasc Hj) as H1.
  destruct (nth_error_split _ _ Hj) as (m1 & m2 & Hcs & Hm1).
  rewrite Hcs in Hasc, Hi.
  pose proof (ascending_index m1 m2 cj ci i Hasc Hi) as H2.
  lia.
Qed.

(** Valid labels that start with different runes have no common prefix. *)
Lemma commonPrefix_distinct (a b : gostring) :
  valid a -> valid b -> a <> [] -> b <> [] ->
  firstRune a <> firstRune b -> commonPrefix a b = Ok [].
Proof.
  intros Ha Hb Hna Hnb Hfr.
  destruct (commonPrefix_valid a b Ha Hb)
    as (cp & a' & b' & Hc & -> & -> & Hcp & _).
  destruct cp as [|x cp]; [assumption|]. exfalso. apply Hfr.
  rewrite !firstRune_app; auto; discriminate.
Qed.

Lemma wf_invariants (n : node) :
  wf n -> every_node (fun m => I1 m /\ I2 m) n.
Proof.
  induction n as [p vs cs IH] using node_induction. intros Hwf.
  apply wf_unfold in Hwf as (Hp & Hasc & Hcs).
  apply every_node_unfold. cbn [children]. split; [split|].
  - split; [now apply sorted_NoDup|assumption].
  - intros i j ci cj Hij Hi Hj. cbn [children] in Hi, Hj.
    rewrite Forall_forall in Hcs.
    destruct (Hcs ci (nth_error_In _ _ Hi)) as [Hni Hwi].
    destruct (Hcs cj (nth_error_In _ _ Hj)) as [Hnj Hwj].
    apply commonPrefix_distinct; auto.
    + destruct ci. now apply wf_unfold in Hwi.
    + destruct cj. now apply wf_unfold in Hwj.
    + exact (ascending_distinct cs i j ci cj Hasc Hij Hi Hj).
  - rewrite Forall_forall in *. intros c Hc. apply IH; [assumption|].
    now apply Hcs.
Qed.

(** C6 (sorted-children invariant): in every trie built from the zero
    value by [Add] calls with valid keys, the children of every node have
    labels whose first runes are unique and strictly ascending (I1), and no
    two of them have labels with a non-empty common prefix (I2); and every
    further [Add] with a valid key returns a trie in which both hold
    again. *)
Theorem children_invariant (ops : list (gostring * Z)) (t : Trie) :
  valid_keys ops -> build ops = Ok t ->
  every_node (fun n => I1 n /\ I2 n) (root t) /\
  forall key value,
    ValidString key = true ->
    exists t',
      Add t key value = Ok t' /\
      every_node (fun n => I1 n /\ I2 n) (root t').
Proof.
  intros Hops Hb.
  destruct (build_stores ops t Hops Hb) as [Hwf _].
  split; [apply wf_invariants, Hwf|].
  intros key value Hk.
  destruct (Add_ok t key value Hwf (ValidString_valid _ Hk))
    as (t' & Ha & Hwf' & _).
  exists t'. split; [assumption|]. apply wf_invariants, Hwf'.
Qed.

(** The invariants on the trie of the package example. *)
Lemma children_invariant_witness :
  every_node (fun n => I1 n /\ I2 n) (root ex_trie) /\
  forall key value,
    ValidString key = true ->
    exists t',
      Add ex_trie key value = Ok t' /\
      every_node (fun n => I1 n /\ I2 n) (root t').
Proof.
  apply (children_invariant ex_ops ex_trie).
  - repeat constructor.
  - vm_compute. reflexivity.
Defined.

(** ** The split *)

(** Where the loop of [commonPrefix] stops, on any two strings: at the
    common length, or before runes that differ. *)
Lemma commonPrefix_loop_stop (fuel : nat) (a b : gostring) :
  forall i commonLen r,
    commonPrefix_loop fuel a b i commonLen = Ok r ->
    commonLen <= r \/ firstRune (skipn r a) <> firstRune (skipn r b).
Proof.
  induction fuel as [|fuel IH]; intros i commonLen r; cbn [commonPrefix_loop];
    destruct (Nat.ltb_spec i commonLen) as [Hlt|Hge];
    try discriminate; try (intros [= <-]; now left).
  unfold slice_from.
  destruct (i <=? length a); cbn [bind]; [|discriminate].
  destruct (i <=? length b); cbn [bind]; [|discriminate].
  destruct (DecodeRuneInString (skipn i a)) as [ra sza] eqn:Ha.
  destruct (DecodeRuneInString (skipn i b)) as [rb szb] eqn:Hb.
  destruct (Z.eqb_spec ra rb) as [Heq|Hne]; cbn [negb].
  - apply IH.
  - intros [= <-]. right. unfold firstRune. now rewrite Ha, Hb.
Qed.

Lemma commonPrefix_stop (a b cp : gostring) :
  commonPrefix a b = Ok cp ->
  cp = firstn (length cp) a /\
  (length a <= length cp \/ length b <= length cp \/
   firstRune (skipn (length cp) a) <> firstRune (skipn (length cp) b)).
Proof.
  unfold commonPrefix.
  destruct (commonPrefix_loop _ a b 0 _) as [r| |] eqn:Hl; cbn [bind];
    try discriminate.
  unfold slice_to. destruct (Nat.leb_spec r (length a)) as [Hr|Hr];
    [|discriminate].
  intros [= <-]. rewrite length_firstn, Nat.min_l by assumption.
  split; [reflexivity|].
  apply commonPrefix_loop_stop in Hl as [Hl|Hl]; [|auto].
  destruct (Nat.ltb_spec (length b) (length a)); [right; left|left]; lia.
Qed.

(** The loop of [add] reaches the child of the first rune of the key and
    replaces it, in its slot, by the outcome of the recursive call. *)
Lemma add_loop_descend (rec : node -> result node) (p : gostring)
    (vs : list Z) (subKey : gostring) (value : Z) (c : node)
    (l2 : list node) :
  child_key c = firstRune subKey ->
  forall l1 pre,
    Forall (fun d => (child_key d < firstRune subKey)%Z) l1 ->
    add_loop rec (Node p vs (pre ++ l1 ++ c :: l2)) (l1 ++ c :: l2)
             (length pre) subKey (firstRune subKey) value
    = (c' <- rec c ;; Ok (Node p vs (pre ++ l1 ++ c' :: l2))).
Proof.
  intros Hc. induction l1 as [|d l1 IH]; intros pre Hl1;
    cbn [app add_loop prefix values children].
  - fold (child_key c). rewrite Hc, Z.eqb_refl.
    destruct (rec c); cbn [bind]; [|reflexivity..].
    now rewrite store_app.
  - inversion Hl1 as [|? ? Hd Hl1']; subst. fold (child_key d).
    destruct (Z.eqb_spec (child_key d) (firstRune subKey)); [lia|].
    destruct (Z.gtb_spec (child_key d) (firstRune subKey)); [lia|].
    replace (S (length pre)) with (length (pre ++ [d]))
      by (rewrite length_app; cbn [length]; lia).
    specialize (IH (pre ++ [d]) Hl1').
    rewrite <- app_assoc in IH. cbn [app] in IH. rewrite IH.
    destruct (rec c); cbn [bind]; [|reflexivity..].
    now rewrite <- app_assoc.
Qed.

(** C9 (split contract): when [add] reaches a node [n], in the slot
    [len(l1)] of its parent, whose label has with the key a common prefix
    [cp] strictly shorter than the label, then afterwards the label of the
    node is exactly [cp]; the rest of the former label, the former values
    and the former children are, unmodified, one child [moved] of the node,
    next to which there is at most the new leaf for the rest of the key; and
    the parent holds the restructured node in the same slot, its other
    children untouched. *)
Theorem split_contract (fuel : nat) (parent n n' : node)
    (l1 l2 : list node) (key : gostring) (value : Z) (cp : gostring) :
  children parent = l1 ++ n :: l2 ->
  Forall (fun c => (child_key c < firstRune key)%Z) l1 ->
  child_key n = firstRune key ->
  commonPrefix (prefix n) key = Ok cp ->
  length cp < length (prefix n) ->
  add_fuel (S fuel) n key value = Ok n' ->
  let moved := Node (skipn (length cp) (prefix n)) (values n) (children n) in
  let leaf := Node (skipn (length cp) key) [value] [] in
  prefix n' = cp /\
  ((values n' = [value] /\ children n' = [moved]) \/
   (values n' = [] /\
    (children n' = [leaf; moved] \/ children n' = [moved; leaf]))) /\
  add_loop (fun c => add_fuel (S fuel) c key value) parent (children parent)
           0 key (firstRune key) value
  = Ok (Node (prefix parent) (values parent) (l1 ++ n' :: l2)).
Proof.
  intros Hcs Hl1 Hn Hcp Hlen Hadd moved leaf.
  split; [|split].
  3:{ destruct parent as [pp pvs pcs]. cbn [children prefix values] in *.
      subst pcs.
      pose proof (add_loop_descend (fun c => add_fuel (S fuel) c key value)
                    pp pvs key value n l2 Hn l1 [] Hl1) as H.
      cbn [app length] in H. rewrite H, Hadd. reflexivity. }
  all: revert Hadd; cbn [add_fuel]; unfold add_body; rewrite Hcp;
    cbn [bind];
    destruct (Nat.ltb_spec (length cp) (length (prefix n))); [|lia];
    unfold split, slice_from at 1;
    destruct (Nat.leb_spec (length cp) (length (prefix n))); [|lia];
    cbn [bind prefix values children]; fold moved;
    (destruct (Nat.eqb_spec (length cp) (length key)) as [He|He];
     [intros [= <-]; cbn [prefix values children app]; auto|]);
    unfold slice_from;
    (destruct (Nat.leb_spec (length cp) (length key)) as [Hk|Hk];
     [|discriminate]);
    cbn [bind]; fold leaf;
    pose proof (add_loop_from (fun c => add_fuel fuel c (skipn (length cp) key) value)
                  cp [] (skipn (length cp) key)
                  (firstRune (skipn (length cp) key)) value
                  [moved] [moved] [] eq_refl (Forall_nil _)) as Hout;
    cbn [length] in Hout;
    destruct Hout as [m1 m2 Hm _ _ | m1 m2 c r Hm _ Hc _].
  - intros [= <-]. reflexivity.
  - intros _. exfalso.
    destruct m1 as [|? [|? ?]]; try discriminate. injection Hm as <- _.
    apply commonPrefix_stop in Hcp as [_ [?|[?|Hd]]]; [lia|lia|].
    apply Hd. exact Hc.
  - intros [= <-]. cbn [values children]. right. split; [reflexivity|].
    destruct m1 as [|? [|? ?]]; try discriminate.
    + cbn [app] in Hm. subst m2. now left.
    + injection Hm as <- <-. now right.
  - intros _. exfalso.
    destruct m1 as [|? [|? ?]]; try discriminate. injection Hm as <- _.
    apply commonPrefix_stop in Hcp as [_ [?|[?|Hd]]]; [lia|lia|].
    apply Hd. exact Hc.
Qed.

(** Adding "abd" below a node whose child is labelled "abc" splits the
    child at "ab". *)
Lemma split_contract_witness :
  let n := Node (str "abc") [1%Z] [] in
  let n' := Node (str "ab") []
                 [Node (str "c") [1%Z] []; Node (str "d") [2%Z] []] in
  let moved := Node (skipn 2 (str "abc")) [1%Z] [] in
  let leaf := Node (skipn 2 (str "abd")) [2%Z] [] in
  prefix n' = str "ab" /\
  ((values n' = [2%Z] /\ children n' = [moved]) \/
   (values n' = [] /\
    (children n' = [leaf; moved] \/ children n' = [moved; leaf]))) /\
  add_loop (fun c => add_fuel 1 c (str "abd") 2%Z) ex_parent
           (children ex_parent) 0 (str "abd") (firstRune (str "abd")) 2%Z
  = Ok (Node (prefix ex_parent) (values ex_parent) ([] ++ n' :: [])).
Proof.
  apply (split_contract 0 ex_parent (Node (str "abc") [1%Z] [])
           (Node (str "ab") []
                 [Node (str "c") [1%Z] []; Node (str "d") [2%Z] []])
           [] [] (str "abd") 2%Z (str "ab")).
  - reflexivity.
  - constructor.
  - reflexivity.
  - vm_compute. reflexivity.
  - vm_compute. lia.
  - vm_compute. reflexivity.
Defined.

(** ** The test of validity *)

(** The executable test of validity is exact. *)
Lemma valid_ValidString_fuel (s : gostring) :
  valid s -> forall fuel, length s <= fuel -> ValidString_fuel fuel s = true.
Proof.
  induction 1 as [|r chunk rest He Hv IH]; intros fuel Hf.
  - destruct fuel; reflexivity.
  - pose proof (enc_length r chunk He) as Hl.
    destruct (chunk ++ rest) as [|c t] eqn:Hs.
    { destruct chunk; cbn in Hl; [lia|discriminate]. }
    rewrite <- Hs in *. rewrite length_app in Hf.
    destruct fuel as [|fuel]; [lia|].
    rewrite Hs. cbn [ValidString_fuel]. rewrite <- Hs.
    rewrite (decode_enc r chunk rest He).
    assert ((r =? RuneError)%Z && (length chunk =? 1) = false) as ->.
    { destruct (Nat.eqb_spec (length chunk) 1) as [H1|H1];
        [|apply andb_false_r].
      destruct chunk as [|c0 [|? ?]]; try discriminate.
      unfold enc in He. cbn [map] in He. destruct He as [Hlt ->].
      destruct (Z.eqb_spec (byteZ c0) RuneError) as [E|E]; [|reflexivity].
      unfold RuneError in E. lia. }
    rewrite skipn_len. apply IH. lia.
Qed.

Lemma ValidString_iff (s : gostring) : ValidString s = true <-> valid s.
Proof.
  split; [apply ValidString_valid|].
  intros Hv. now apply valid_ValidString_fuel.
Qed.

(** ** The fuel of the loops is enough *)

Lemma commonPrefix_loop_fuel (fuel : nat) (a b : gostring) :
  forall i commonLen,
    commonLen <= length a -> commonLen <= length b ->
    commonLen - i <= fuel ->
    commonPrefix_loop fuel a b i commonLen <> OutOfFuel.
Proof.
  induction fuel as [|fuel IH]; intros i commonLen Ha Hb Hf;
    cbn [commonPrefix_loop];
    destruct (Nat.ltb_spec i commonLen) as [Hlt|Hge]; try discriminate;
    [lia|].
  unfold slice_from.
  destruct (Nat.leb_spec i (length a)); [|lia].
  destruct (Nat.leb_spec i (length b)); [|lia].
  cbn [bind].
  destruct (DecodeRuneInString (skipn i a)) as [ra sza].
  destruct (DecodeRuneInString (skipn i b)) as [rb szb] eqn:Hdb.
  destruct (negb (ra =? rb)%Z); [discriminate|].
  apply IH; auto.
  assert (skipn i b <> []) as Hne.
  { intros Hnil. apply (f_equal (@length _)) in Hnil.
    rewrite length_skipn in Hnil. cbn [length] in Hnil. lia. }
  pose proof (decode_size _ Hne) as Hs. rewrite Hdb in Hs. cbn [snd] in Hs.
  lia.
Qed.

(** [commonPrefix] returns or panics, on any two strings. *)
Lemma commonPrefix_fuel (a b : gostring) : commonPrefix a b <> OutOfFuel.
Proof.
  unfold commonPrefix.
  pose proof (commonPrefix_loop_fuel
                (if length b <? length a then length b else length a) a b 0
                (if length b <? length a then length b else length a)) as H.
  destruct (commonPrefix_loop _ a b 0 _) as [r| |]; cbn [bind].
  - unfold slice_to. destruct (r <=? length a); discriminate.
  - discriminate.
  - exfalso. apply H; auto;
      destruct (Nat.ltb_spec (length b) (length a)); lia.
Qed.

(** The binary search returns an index, on any children. *)
Lemma search_loop_returns (cs : list node) (fr : Z) (fuel : nat) :
  forall lo hi,
    lo <= hi -> hi <= length cs -> hi - lo <= fuel ->
    exists r, search_loop fuel cs fr lo hi = Ok r /\ lo <= r <= hi.
Proof.
  induction fuel as [|fuel IH]; intros lo hi Hlo Hhi Hf; cbn [search_loop];
    destruct (Nat.ltb_spec lo hi) as [Hlt|Hge];
    try (exists lo; split; [reflexivity|lia]); [lia|].
  assert ((hi - lo) / 2 < hi - lo) as Hmid by (apply Nat.div_lt; lia).
  destruct (nth_error cs (lo + (hi - lo) / 2)) as [d|] eqn:Hd.
  2:{ apply nth_error_None in Hd. lia. }
  destruct (firstRune (prefix d) <? fr)%Z.
  - destruct (IH (lo + (hi - lo) / 2 + 1) hi) as (r & -> & Hr); try lia.
    exists r. split; [reflexivity|lia].
  - destruct (IH lo (lo + (hi - lo) / 2)) as (r & -> & Hr); try lia.
    exists r. split; [reflexivity|lia].
Qed.

(** [find] returns or panics, on any node: its search never lacks fuel. *)
Lemma find_fuel (n : node) : forall dst q, find n dst q <> OutOfFuel.
Proof.
  induction n as [p vs cs IH] using node_induction. intros dst q.
  rewrite find_unfold.
  destruct (HasPrefix p q); [discriminate|].
  unfold slice_from. destruct (length p <=? length q); cbn [bind];
    [|discriminate].
  destruct (search_loop_returns cs (firstRune (skipn (length p) q))
              (length cs) 0 (length cs)) as (lo & -> & _); try lia.
  cbn [bind]. destruct (length cs <=? lo); [discriminate|].
  destruct (nth_error cs lo) as [c|] eqn:Hc; [|discriminate].
  destruct (negb _); [discriminate|].
  apply nth_error_In in Hc. rewrite Forall_forall in IH. now apply IH.
Qed.

(** [add] returns or panics, on any node and key: the fuel [height n] is
    enough, because after a split the loop does not descend. *)
Lemma add_fuel_enough (fuel : nat) :
  forall (n : node) (key : gostring) (value : Z),
    height n <= fuel -> add_fuel fuel n key value <> OutOfFuel.
Proof.
  induction fuel as [|fuel IH]; intros [p vs cs] key value Hh.
  { cbn [height] in Hh. lia. }
  cbn [add_fuel]. unfold add_body. cbn [prefix].
  pose proof (commonPrefix_fuel p key) as Hcf.
  destruct (commonPrefix p key) as [cp| |] eqn:Hcp; cbn [bind];
    [|discriminate|congruence].
  destruct (Nat.ltb_spec (length cp) (length p)) as [Hlt|Hge].
  - unfold split, slice_from at 1. cbn [prefix values children].
    destruct (Nat.leb_spec (length cp) (length p)); [|lia].
    cbn [bind prefix values children].
    destruct (Nat.eqb_spec (length cp) (length key)); [discriminate|].
    unfold slice_from.
    destruct (Nat.leb_spec (length cp) (length key)); [|discriminate].
    cbn [bind].
    match goal with |- add_loop ?rec _ ?l 0 ?sk ?fr _ <> _ =>
      pose proof (add_loop_from rec cp [] sk fr value l l [] eq_refl
                    (Forall_nil _)) as Hout
    end.
    cbn [length] in Hout.
    destruct Hout as [m1 m2 Hm _ _ | m1 m2 c r Hm _ Hc _]; [discriminate|].
    exfalso. destruct m1 as [|? [|? ?]]; try discriminate.
    injection Hm as <- _.
    apply commonPrefix_stop in Hcp as [_ [?|[?|Hd]]]; [lia|lia|].
    apply Hd. exact Hc.
  - cbn [bind prefix values children].
    destruct (Nat.eqb_spec (length cp) (length key)); [discriminate|].
    unfold slice_from.
    destruct (Nat.leb_spec (length cp) (length key)); [|discriminate].
    cbn [bind].
    match goal with |- add_loop ?rec _ ?l 0 ?sk ?fr _ <> _ =>
      pose proof (add_loop_from rec p vs sk fr value l l [] eq_refl
                    (Forall_nil _)) as Hout
    end.
    cbn [length] in Hout.
    destruct Hout as [m1 m2 Hm _ _ | m1 m2 c r Hm _ Hc ->]; [discriminate|].
    assert (add_fuel fuel c (skipn (length cp) key) value <> OutOfFuel) as Hc'.
    { apply IH. cbn [height] in Hh.
      assert (In c cs) as Hin by (rewrite Hm; apply in_or_app; right; now left).
      pose proof (height_child c cs Hin). lia. }
    destruct (add_fuel fuel c (skipn (length cp) key) value); cbn [bind];
      [discriminate|discriminate|congruence].
Qed.

Lemma Add_loop_fuel (key : gostring) (value : Z) (offs : list nat) :
  forall t, Add_loop t key value offs <> OutOfFuel.
Proof.
  induction offs as [|i offs IH]; intros t; cbn [Add_loop]; [discriminate|].
  unfold slice_from. destruct (i <=? length key); cbn [bind]; [|discriminate].
  pose proof (add_fuel_enough (height (root t)) (root t) (skipn i key) value
                (Nat.le_refl _)) as Ha.
  unfold add. destruct (add_fuel _ _ _ _); cbn [bind];
    [apply IH|discriminate|congruence].
Qed.

(** A sequence of [Add] calls returns or panics, whatever the keys. *)
Lemma build_fuel (ops : list (gostring * Z)) : build ops <> OutOfFuel.
Proof.
  unfold build. generalize zero.
  induction ops as [|[key value] ops IH]; intros t; cbn [build_from];
    [discriminate|].
  pose proof (Add_loop_fuel key value (range key) t) as Ha. unfold Add.
  destruct (Add_loop t key value (range key)); cbn [bind];
    [apply IH|discriminate|congruence].
Qed.

(** ** The example of the package *)

(** The example of the package documentation: the output
    [[0] [1] [1 0] [0 1] [1] [0]]. *)
Example package_example :
  Find ex_trie [] (str "www.google.com") = Ok [0%Z] /\
  Find ex_trie [] (str "www.foogle.net") = Ok [1%Z] /\
  Find ex_trie [] (str "www") = Ok [1%Z; 0%Z] /\
  Find ex_trie [] (str "ogle") = Ok [0%Z; 1%Z] /\
  Find ex_trie [] (str "fo") = Ok [1%Z] /\
  Find ex_trie [] (str "google.com") = Ok [0%Z].
Proof. repeat split; vm_compute; reflexivity. Qed.

(** ** Queries that are prefixes of stored strings *)

(** What follows a valid prefix of a valid string is valid. *)
Lemma valid_app_inv (a b : gostring) : valid a -> valid (a ++ b) -> valid b.
Proof.
  induction 1 as [|r chunk rest He Hv IH]; intros Hab; [assumption|].
  apply IH. rewrite <- app_assoc in Hab.
  pose proof (enc_length r chunk He) as Hl.
  destruct (valid_decode _ Hab) as (r' & chunk' & rest' & Hs & He' & Hv' & Hd).
  { destruct chunk; cbn in *; [lia|discriminate]. }
  rewrite (decode_enc r chunk (rest ++ b) He) in Hd.
  injection Hd as <- Hlen.
  assert (chunk = chunk') as <- by (eapply enc_inj; eassumption).
  apply app_inv_head in Hs. now rewrite Hs.
Qed.

(** A query that is a prefix of a string stored below a label, and not of
    the label, continues after the label. *)
Lemma prefix_beyond_label (p s0 q : gostring) :
  HasPrefix (p ++ s0) q = true -> HasPrefix p q = false ->
  exists q0, q = p ++ q0 /\ q0 <> [] /\ HasPrefix s0 q0 = true.
Proof.
  intros Hs Hp. apply HasPrefix_true in Hs as [r Hr].
  apply app_eq_app in Hr as [l [[Hl _]|[Hl Hl']]].
  - exfalso. apply HasPrefix_false in Hp. apply Hp. now exists l.
  - exists l. repeat split; [assumption| |apply HasPrefix_true; now exists r].
    intros ->. rewrite app_nil_r in Hl. subst q.
    now rewrite HasPrefix_refl in Hp.
Qed.

(** [find] of a valid query that some stored string starts with returns,
    appended to [dst], the values of the stored strings that start with the
    query. *)
Lemma find_prefix (n : node) :
  wf n ->
  forall dst q e,
    valid q -> In e (entries n) -> matches q e = true ->
    find n dst q = Ok (dst ++ map snd (filter (matches q) (entries n))).
Proof.
  induction n as [p vs cs IH] using node_induction.
  intros Hwf dst q [s v0] Hq Hin Hm. rewrite find_unfold.
  apply wf_unfold in Hwf as (Hp & Hasc & Hcs).
  unfold matches in Hm. cbn [fst] in Hm.
  cbn [entries] in Hin. apply in_shift in Hin as (s0 & -> & Hin).
  destruct (HasPrefix p q) eqn:Hpq.
  - rewrite collectValues_entries. rewrite filter_all; [reflexivity|].
    intros e He. apply entries_prefix in He as [s1 Hs1]. unfold matches.
    apply HasPrefix_true in Hpq as [r ->]. cbn [prefix] in Hs1.
    apply HasPrefix_true. exists (r ++ s1). now rewrite Hs1, app_assoc.
  - destruct (prefix_beyond_label p s0 q Hm Hpq) as (q0 & -> & Hq0 & Hs0).
    assert (valid q0) as Hvq0 by exact (valid_app_inv p q0 Hp Hq).
    rewrite slice_from_app. cbn [bind].
    apply in_app_or in Hin as [Hin|Hin].
    { apply in_map_iff in Hin as (? & [= <- _] & _).
      apply HasPrefix_true in Hs0 as [r Hr]. destruct q0; [congruence|discriminate]. }
    apply in_flat_map in Hin as (c & Hc & Hin).
    pose proof (proj1 (Forall_forall _ _) Hcs c Hc) as [Hcne Hcwf].
    assert (valid (prefix c)) as Hcv
        by (destruct c; now apply wf_unfold in Hcwf).
    pose proof (entries_prefix _ _ Hin) as [s1 Hs1]. cbn [fst] in Hs1.
    assert (firstRune q0 = child_key c) as Hfr.
    { apply HasPrefix_true in Hs0 as [r Hr].
      rewrite <- (firstRune_app q0 r Hvq0 Hq0), <- Hr, Hs1.
      now apply firstRune_app. }
    apply in_split in Hc as (l1 & l2 & ->).
    rewrite Hfr, search_loop_found; auto;
      [|rewrite ?length_app; cbn [length]; lia..].
    cbn [bind]. rewrite length_app. cbn [length].
    destruct (Nat.leb_spec (length l1 + S (length l2)) (length l1)); [lia|].
    rewrite nth_error_app2, Nat.sub_diag by lia. cbn [nth_error].
    rewrite Z.eqb_refl. cbn [negb].
    apply Forall_app in IH as [_ IH]. inversion IH as [|? ? IHc _]; subst.
    rewrite (IHc Hcwf dst q0 _ Hvq0 Hin Hs0).
    f_equal. f_equal.
    cbn [entries]. rewrite filter_shift, map_snd_shift, filter_app.
    rewrite (filter_none (matches q0) (map _ vs)).
    2:{ intros e He. apply in_map_iff in He as (v & <- & _).
        unfold matches. cbn [fst]. apply HasPrefix_false. intros [r Hr].
        destruct q0; [congruence|discriminate]. }
    cbn [app]. rewrite !flat_map_app, !filter_app. cbn [flat_map].
    rewrite filter_app.
    apply ascending_split in Hasc as [H1 H2].
    apply Forall_app in Hcs as [Hcs1 Hcs2].
    inversion Hcs2 as [|? ? _ Hcs2']; subst.
    rewrite Forall_forall in H1, H2, Hcs1, Hcs2'.
    rewrite !(filter_none (matches q0) (flat_map entries _)).
    + now rewrite app_nil_r.
    + intros e He. apply in_flat_map in He as (d & Hd & He).
      rewrite <- (app_nil_r q0). apply (other_child_no_match d); auto.
      specialize (H2 d Hd). lia.
    + intros e He. apply in_flat_map in He as (d & Hd & He).
      rewrite <- (app_nil_r q0). apply (other_child_no_match d); auto.
      specialize (H1 d Hd). lia.
Qed.

(** ** Substring search *)

(** The answer of a built trie to a query that an inserted suffix starts
    with. *)
Lemma Find_answer (ops : list (gostring * Z)) (t : Trie) (dst : list Z)
    (q : gostring) (e : gostring * Z) :
  valid_keys ops -> build ops = Ok t ->
  ValidString q = true ->
  In e (all_suffixes ops) -> matches q e = true ->
  exists res,
    Find t dst q = Ok (dst ++ res) /\
    Permutation res (map snd (filter (matches q) (all_suffixes ops))).
Proof.
  intros Hops Hb Hq He Hm.
  destruct (build_stores ops t Hops Hb) as [(Hwf & _ & _) Hperm].
  eexists. split.
  - unfold Find. apply (find_prefix (root t) Hwf dst q e); auto.
    + now apply ValidString_valid.
    + apply (Permutation_in _ (Permutation_sym Hperm)). exact He.
  - apply Permutation_map, filter_perm. exact Hperm.
Qed.

(** X1 (exact answer): in a trie built by [Add] calls with valid keys, for
    a valid query [q] that at least one inserted suffix starts with,
    [Find(dst, q)] returns [dst] followed by the values of the inserted
    suffixes that start with [q], one for every such suffix: no value is
    missing, none is added, and a value comes as many times as [q] occurs at
    rune offsets of its keys. *)
Theorem Find_exact (ops : list (gostring * Z)) (t : Trie) (dst : list Z)
    (q : gostring) (e : gostring * Z) :
  valid_keys ops -> build ops = Ok t ->
  ValidString q = true ->
  In e (all_suffixes ops) -> matches q e = true ->
  exists res,
    Find t dst q = Ok (dst ++ res) /\
    forall x,
      count_occ Z.eq_dec res x
      = count_occ Z.eq_dec
          (map snd (filter (matches q) (all_suffixes ops))) x.
Proof.
  intros Hops Hb Hq He Hm.
  destruct (Find_answer ops t dst q e Hops Hb Hq He Hm) as (res & Hf & Hp).
  exists res. split; [exact Hf|].
  intros x. now apply (Permutation_count_occ Z.eq_dec).
Qed.

(** The query "ogle" on the trie of the package example. *)
Lemma Find_exact_witness :
  exists res,
    Find ex_trie [9%Z] (str "ogle") = Ok ([9%Z] ++ res) /\
    forall x,
      count_occ Z.eq_dec res x
      = count_occ Z.eq_dec
          (map snd (filter (matches (str "ogle")) (all_suffixes ex_ops))) x.
Proof.
  apply (Find_exact ex_ops ex_trie [9%Z] (str "ogle") (str "ogle.com", 0%Z)).
  - repeat constructor.
  - vm_compute. reflexivity.
  - reflexivity.
  - vm_compute. tauto.
  - reflexivity.
Defined.

Lemma range_from_skip (c s : gostring) :
  forall i, range_from (c ++ s) i (length c) = range_from s (i + length c) 0.
Proof.
  induction c as [|x c IH]; intros i; cbn [app length range_from].
  - now rewrite Nat.add_0_r.
  - rewrite IH. f_equal. lia.
Qed.

(** The end of a valid prefix of a key is an offset of [range key]. *)
Lemma range_offset (a s : gostring) :
  valid a -> s <> [] ->
  forall i, In (i + length a) (range_from (a ++ s) i 0).
Proof.
  induction 1 as [|r chunk rest He Hv IH]; intros Hs i.
  - destruct s as [|b s]; [congruence|]. cbn [app length range_from].
    left. lia.
  - rewrite <- app_assoc.
    pose proof (decode_enc r chunk (rest ++ s) He) as Hd.
    pose proof (enc_length r chunk He) as Hl.
    destruct chunk as [|c0 chunk]; [cbn in Hl; lia|].
    cbn [app] in *. cbn [range_from]. rewrite Hd. cbn [snd length].
    right. replace (S (length chunk) - 1) with (length chunk) by lia.
    rewrite range_from_skip.
    replace (i + S (length (chunk ++ rest)))
      with (S i + length chunk + length rest)
      by (rewrite length_app; lia).
    now apply IH.
Qed.

(** X2 (substring completeness): in a trie built by [Add] calls with valid
    keys, every non-empty substring [q] of an added key [a ++ q ++ b] that
    starts and ends between runes is found: [Find(nil, q)] returns a result
    that contains the value of the key. *)
Theorem substring_found (ops : list (gostring * Z)) (t : Trie)
    (a q b : gostring) (v : Z) :
  valid_keys ops -> build ops = Ok t ->
  In (a ++ q ++ b, v) ops ->
  ValidString a = true -> ValidString q = true -> q <> [] ->
  exists res, Find t [] q = Ok res /\ In v res.
Proof.
  intros Hops Hb Hin Ha Hq Hne.
  assert (In (q ++ b, v) (all_suffixes ops)) as He.
  { rewrite <- (skipn_len a (q ++ b)).
    apply suffix_stored; [assumption|].
    refine (range_offset a (q ++ b) (ValidString_valid _ Ha) _ 0).
    now destruct q. }
  assert (matches q (q ++ b, v) = true) as Hm.
  { unfold matches. cbn [fst]. apply HasPrefix_true. now exists b. }
  destruct (Find_answer ops t [] q (q ++ b, v) Hops Hb Hq He Hm)
    as (res & Hf & Hp).
  exists res. split; [exact Hf|].
  apply (Permutation_in _ (Permutation_sym Hp)).
  apply in_map_iff. exists (q ++ b, v). split; [reflexivity|].
  now apply filter_In.
Qed.

(** "goo" inside "www.google.com". *)
Lemma substring_found_witness :
  exists res, Find ex_trie [] (str "goo") = Ok res /\ In 0%Z res.
Proof.
  apply (substring_found ex_ops ex_trie (str "www.") (str "goo")
           (str "gle.com") 0%Z).
  - repeat constructor.
  - vm_compute. reflexivity.
  - now left.
  - reflexivity.
  - reflexivity.
  - discriminate.
Defined.

(** X3 (soundness of a found query): under the conditions of X1, every
    value that [Find(nil, q)] returns was added with a key in which [q]
    occurs. *)
Theorem Find_sound (ops : list (gostring * Z)) (t : Trie)
    (q : gostring) (e : gostring * Z) (res : list Z) (v : Z) :
  valid_keys ops -> build ops = Ok t ->
  ValidString q = true ->
  In e (all_suffixes ops) -> matches q e = true ->
  Find t [] q = Ok res -> In v res ->
  exists a b, In (a ++ q ++ b, v) ops.
Proof.
  intros Hops Hb Hq He Hm Hf Hv.
  destruct (Find_answer ops t [] q e Hops Hb Hq He Hm) as (res' & Hf' & Hp).
  rewrite Hf in Hf'. injection Hf' as ->. cbn [app] in Hv.
  apply (Permutation_in _ Hp) in Hv.
  apply in_map_iff in Hv as ([s w] & Hw & Hs). cbn [snd] in Hw. subst w.
  apply filter_In in Hs as [Hs Hms].
  unfold all_suffixes, suffixes in Hs. apply in_flat_map in Hs as ([k w] & Hk & Hs).
  cbn [fst snd] in Hs. apply in_map_iff in Hs as (j & [= <- <-] & _).
  unfold matches in Hms. cbn [fst] in Hms.
  apply HasPrefix_true in Hms as [b Hb'].
  exists (firstn j k), b. rewrite <- Hb', firstn_skipn. exact Hk.
Qed.

(** The value 1 returned for "fo" belongs to "www.foogle.net". *)
Lemma Find_sound_witness :
  exists a b, In (a ++ str "fo" ++ b, 1%Z) ex_ops.
Proof.
  apply (Find_sound ex_ops ex_trie (str "fo") (str "foogle.net", 1%Z)
           [1%Z] 1%Z).
  - repeat constructor.
  - vm_compute. reflexivity.
  - reflexivity.
  - vm_compute. tauto.
  - reflexivity.
  - vm_compute. reflexivity.
  - now left.
Defined.

Lemma all_suffixes_app (ops more : list (gostring * Z)) :
  all_suffixes (ops ++ more) = all_suffixes ops ++ all_suffixes more.
Proof. apply flat_map_app. Qed.

Lemma valid_keys_app (ops more : list (gostring * Z)) :
  valid_keys (ops ++ more) -> valid_keys ops.
Proof. intros H. now apply Forall_app in H. Qed.

(** X7 (answers only grow): further [Add] calls with valid keys do not
    remove anything from the answer to a query that was found: every value
    comes at least as many times as before. *)
Theorem Find_grows (ops more : list (gostring * Z)) (t t' : Trie)
    (q : gostring) (e : gostring * Z) :
  valid_keys (ops ++ more) ->
  build ops = Ok t -> build (ops ++ more) = Ok t' ->
  ValidString q = true ->
  In e (all_suffixes ops) -> matches q e = true ->
  exists res res',
    Find t [] q = Ok res /\ Find t' [] q = Ok res' /\
    forall x, count_occ Z.eq_dec res x <= count_occ Z.eq_dec res' x.
Proof.
  intros Hops Hb Hb' Hq He Hm.
  destruct (Find_answer ops t [] q e (valid_keys_app _ _ Hops) Hb Hq He Hm)
    as (res & Hf & Hp).
  destruct (Find_answer (ops ++ more) t' [] q e Hops Hb' Hq) as (res' & Hf' & Hp');
    [rewrite all_suffixes_app; apply in_or_app; now left|assumption|].
  exists res, res'. repeat split; auto. intros x.
  rewrite (proj1 (Permutation_count_occ Z.eq_dec _ _) Hp x).
  rewrite (proj1 (Permutation_count_occ Z.eq_dec _ _) Hp' x).
  rewrite all_suffixes_app, filter_app, map_app, count_occ_app. lia.
Qed.

(** "ogle" before and after [Add("moogle", 2)]. *)
Lemma Find_grows_witness :
  exists res res',
    Find ex_trie [] (str "ogle") = Ok res /\
    Find ex_trie_more [] (str "ogle") = Ok res' /\
    forall x, count_occ Z.eq_dec res x <= count_occ Z.eq_dec res' x.
Proof.
  apply (Find_grows ex_ops ex_ops_more ex_trie ex_trie_more (str "ogle")
           (str "ogle.com", 0%Z)).
  - repeat constructor.
  - vm_compute. reflexivity.
  - vm_compute. reflexivity.
  - reflexivity.
  - vm_compute. tauto.
  - reflexivity.
Defined.

Lemma all_suffixes_perm (ops ops' : list (gostring * Z)) :
  Permutation ops ops' -> Permutation (all_suffixes ops) (all_suffixes ops').
Proof.
  induction 1 as [|x l l' H IH|x y l|l l' l'' H1 IH1 H2 IH2];
    unfold all_suffixes in *; cbn [flat_map].
  - constructor.
  - now apply Permutation_app_head.
  - rewrite !app_assoc. apply Permutation_app_tail, Permutation_app_comm.
  - now transitivity (flat_map (fun kv => suffixes (fst kv) (snd kv)) l').
Qed.

(** X13 (order of the calls): the answer to a found query does not depend
    on the order in which the keys were added, up to the order of the
    values in it. *)
Theorem Find_order_independent (ops ops' : list (gostring * Z))
    (t t' : Trie) (q : gostring) (e : gostring * Z) :
  Permutation ops ops' -> valid_keys ops ->
  build ops = Ok t -> build ops' = Ok t' ->
  ValidString q = true ->
  In e (all_suffixes ops) -> matches q e = true ->
  exists res res',
    Find t [] q = Ok res /\ Find t' [] q = Ok res' /\ Permutation res res'.
Proof.
  intros Hperm Hops Hb Hb' Hq He Hm.
  assert (valid_keys ops') as Hops'.
  { unfold valid_keys in *. rewrite Forall_forall in *.
    intros kv Hkv. apply Hops.
    apply (Permutation_in _ (Permutation_sym Hperm)). exact Hkv. }
  pose proof (all_suffixes_perm ops ops' Hperm) as Hs.
  destruct (Find_answer ops t [] q e Hops Hb Hq He Hm) as (res & Hf & Hp).
  destruct (Find_answer ops' t' [] q e Hops' Hb' Hq) as (res' & Hf' & Hp');
    [apply (Permutation_in _ Hs); exact He|assumption|].
  exists res, res'. repeat split; auto.
  rewrite Hp, Hp'. apply Permutation_map, filter_perm. exact Hs.
Qed.

(** "www" with the two keys of the package example in either order. *)
Lemma Find_order_independent_witness :
  exists res res',
    Find ex_trie [] (str "www") = Ok res /\
    Find ex_trie_rev [] (str "www") = Ok res' /\ Permutation res res'.
Proof.
  apply (Find_order_independent ex_ops ex_ops_rev ex_trie ex_trie_rev
           (str "www") (str "www.google.com", 0%Z)).
  - apply perm_swap.
  - repeat constructor.
  - vm_compute. reflexivity.
  - vm_compute. reflexivity.
  - reflexivity.
  - vm_compute. tauto.
  - reflexivity.
Defined.

(** ** The values of a trie *)

Lemma fold_collectValues (cs : list node) :
  forall acc,
    fold_left (fun dst c => collectValues c dst) cs acc
    = acc ++ flat_map (fun c => collectValues c []) cs.
Proof.
  induction cs as [|c cs IH]; intros acc; cbn [fold_left flat_map].
  - now rewrite app_nil_r.
  - now rewrite IH, (collectValues_app c acc), app_assoc.
Qed.

Lemma collectValues_children (n : node) (dst : list Z) :
  collectValues n dst
  = dst ++ values n ++ flat_map (fun c => collectValues c []) (children n).
Proof.
  destruct n as [p vs cs]. cbn [collectValues values children].
  now rewrite fold_collectValues, app_assoc.
Qed.

(** X10 (order of the values): [collectValues] appends to [dst] the values
    of the subtree in pre-order: the values of the node itself, then the
    values of the subtree of each child, child after child in the order of
    [children]; [dst] itself stays in front, unchanged. *)
Theorem collectValues_preorder (n : node) (dst : list Z) :
  collectValues n dst = dst ++ preorder n.
Proof.
  revert dst. induction n as [p vs cs IH] using node_induction. intros dst.
  rewrite collectValues_children. cbn [values children preorder].
  do 2 f_equal. induction IH as [|c cs Hc _ IHcs]; cbn [flat_map].
  - reflexivity.
  - now rewrite IHcs, (Hc []).
Qed.

Lemma add_loop_values (rec : node -> result node) (p : gostring)
    (vs : list Z) (cs : list node) (subKey : gostring) (fr value : Z)
    (n' : node) :
  (forall c c', rec c = Ok c' ->
     Permutation (collectValues c' []) (value :: collectValues c [])) ->
  add_loop rec (Node p vs cs) cs 0 subKey fr value = Ok n' ->
  Permutation (collectValues n' []) (value :: collectValues (Node p vs cs) []).
Proof.
  intros Hrec.
  pose proof (add_loop_from rec p vs subKey fr value cs cs [] eq_refl
                (Forall_nil _)) as Hout.
  cbn [length] in Hout.
  destruct Hout as [l1 l2 -> _ _ | l1 l2 c r -> _ _ ->].
  - intros [= <-]. rewrite !collectValues_children. cbn [app values children].
    rewrite flat_map_insert_perm. rewrite collectValues_children.
    cbn [app values children flat_map]. symmetry. apply Permutation_middle.
  - destruct (rec c) as [c'| |] eqn:Hc; cbn [bind]; [|discriminate..].
    intros [= <-]. rewrite !collectValues_children. cbn [app values children].
    rewrite (flat_map_replace_perm _ l1 l2 c c' value (Hrec c c' Hc)).
    symmetry. apply Permutation_middle.
Qed.

Lemma add_fuel_values (fuel : nat) :
  forall (n n' : node) (key : gostring) (value : Z),
    add_fuel fuel n key value = Ok n' ->
    Permutation (collectValues n' []) (value :: collectValues n []).
Proof.
  induction fuel as [|fuel IH]; intros [p vs cs] n' key value;
    [discriminate|].
  cbn [add_fuel]. unfold add_body. cbn [prefix].
  destruct (commonPrefix p key) as [cp| |]; cbn [bind]; [|discriminate..].
  assert (forall n1,
    Permutation (collectValues n1 []) (collectValues (Node p vs cs) []) ->
    (if length cp =? length key
     then Ok (Node (prefix n1) (values n1 ++ [value]) (children n1))
     else subKey <- slice_from key (length cp) ;;
          add_loop (fun c => add_fuel fuel c subKey value) n1 (children n1) 0
                   subKey (firstRune subKey) value) = Ok n' ->
    Permutation (collectValues n' []) (value :: collectValues (Node p vs cs) []))
    as Hrest.
  { intros [p1 vs1 cs1] Hp1. cbn [prefix values children].
    destruct (length cp =? length key).
    - intros [= <-]. rewrite <- Hp1, !collectValues_children.
      cbn [app values children]. rewrite <- app_assoc. cbn [app].
      symmetry. apply Permutation_middle.
    - destruct (slice_from key (length cp)) as [sk| |]; cbn [bind];
        [|discriminate..].
      intros Hl. rewrite <- Hp1. revert Hl. apply add_loop_values.
      intros c c'. apply IH. }
  destruct (length cp <? length p).
  - unfold split. cbn [prefix values children].
    destruct (slice_from p (length cp)) as [rest| |]; cbn [bind];
      [|discriminate..].
    apply Hrest. rewrite !collectValues_children.
    cbn [app values children flat_map]. rewrite collectValues_children.
    cbn [app values children]. now rewrite app_nil_r.
  - cbn [bind]. now apply Hrest.
Qed.

(** X11 (no value is lost): whenever [add] returns, on any node and any
    key (valid UTF-8 or not), the subtree holds the values that it held and
    the new value, once. *)
Theorem add_keeps_values (n n' : node) (key : gostring) (value : Z) :
  add n key value = Ok n' ->
  Permutation (collectValues n' []) (value :: collectValues n []).
Proof. apply add_fuel_values. Qed.

(** Adding "abd" below the label "abc": the values 1 and 2. *)
Lemma add_keeps_values_witness :
  Permutation
    (collectValues
       (Node (str "ab") []
             [Node (str "c") [1%Z] []; Node (str "d") [2%Z] []]) [])
    (2%Z :: collectValues (Node (str "abc") [1%Z] []) []).
Proof.
  apply (add_keeps_values
           (Node (str "abc") [1%Z] [])
           (Node (str "ab") []
                 [Node (str "c") [1%Z] []; Node (str "d") [2%Z] []])
           (str "abd") 2%Z).
  vm_compute. reflexivity.
Defined.

Lemma Add_loop_values (key : gostring) (value : Z) (offs : list nat) :
  forall t t',
    Add_loop t key value offs = Ok t' ->
    Permutation (collectValues (root t') [])
                (map (fun _ => value) offs ++ collectValues (root t) []).
Proof.
  induction offs as [|i offs IH]; intros t t'; cbn [Add_loop map app].
  - now intros [= <-].
  - destruct (slice_from key i) as [sub| |]; cbn [bind]; [|discriminate..].
    destruct (add (root t) sub value) as [r| |] eqn:Ha; cbn [bind];
      [|discriminate..].
    intros Hl. rewrite (IH _ _ Hl). cbn [root].
    rewrite (add_fuel_values _ _ _ _ _ Ha). symmetry.
    apply Permutation_middle.
Qed.

Lemma map_snd_suffixes (key : gostring) (value : Z) :
  map snd (suffixes key value) = map (fun _ => value) (range key).
Proof. unfold suffixes. now rewrite map_map. Qed.

Lemma build_from_values (ops : list (gostring * Z)) :
  forall t t',
    build_from t ops = Ok t' ->
    Permutation (collectValues (root t') [])
                (map snd (all_suffixes ops) ++ collectValues (root t) []).
Proof.
  induction ops as [|[key value] ops IH]; intros t t'; cbn [build_from].
  - now intros [= <-].
  - destruct (Add t key value) as [t1| |] eqn:Ha; cbn [bind];
      [|discriminate..].
    intros Hb. rewrite (IH _ _ Hb).
    rewrite (Add_loop_values key value (range key) t t1 Ha).
    change (all_suffixes ((key, value) :: ops))
      with (suffixes key value ++ all_suffixes ops).
    rewrite map_app, map_snd_suffixes.
    rewrite !app_assoc. apply Permutation_app_tail, Permutation_app_comm.
Qed.

(** X5 (the empty prefix, exactly): in a trie that a sequence of [Add]
    calls returns, whatever the keys, [Find(nil, "")] returns every value
    once for every offset of [range key] of the call that added it (once
    per rune of the key), and nothing else. *)
Theorem Find_empty_exact (ops : list (gostring * Z)) (t : Trie) :
  build ops = Ok t ->
  exists res,
    Find t [] [] = Ok res /\ Permutation res (map snd (all_suffixes ops)).
Proof.
  intros Hb. exists (collectValues (root t) []). split.
  - unfold Find. destruct (root t) as [p vs cs]. rewrite find_unfold.
    assert (HasPrefix p [] = true) as -> by (apply HasPrefix_true; now exists p).
    reflexivity.
  - rewrite (build_from_values ops zero t Hb). cbn. now rewrite app_nil_r.
Qed.

(** The empty prefix on the trie of the package example: 28 values. *)
Lemma Find_empty_exact_witness :
  exists res,
    Find ex_trie [] [] = Ok res /\
    Permutation res (map snd (all_suffixes ex_ops)).
Proof.
  apply (Find_empty_exact ex_ops ex_trie). vm_compute. reflexivity.
Defined.

(** What [find] appends to [dst] comes from the subtree of the node. *)
Lemma find_values (n : node) :
  forall dst q res,
    find n dst q = Ok res ->
    exists ms, res = dst ++ ms /\ incl ms (collectValues n []).
Proof.
  induction n as [p vs cs IH] using node_induction. intros dst q res.
  rewrite find_unfold.
  assert (forall r, Ok dst = Ok r ->
            exists ms, r = dst ++ ms /\ incl ms (collectValues (Node p vs cs) []))
    as Hdst.
  { intros r [= <-]. exists []. split; [now rewrite app_nil_r|].
    intros x []. }
  destruct (HasPrefix p q).
  { intros [= <-]. exists (collectValues (Node p vs cs) []).
    split; [exact (collectValues_app (Node p vs cs) dst)|apply incl_refl]. }
  destruct (slice_from q (length p)) as [sub| |]; cbn [bind];
    [|discriminate..].
  destruct (search_loop _ _ _ _ _) as [lo| |]; cbn [bind]; [|discriminate..].
  destruct (length cs <=? lo); [apply Hdst|].
  destruct (nth_error cs lo) as [c|] eqn:Hc; [|discriminate].
  destruct (negb _); [apply Hdst|].
  apply nth_error_In in Hc. rewrite Forall_forall in IH.
  intros Hf. destruct (IH c Hc dst sub res Hf) as (ms & -> & Hms).
  exists ms. split; [reflexivity|].
  intros x Hx. rewrite collectValues_children. cbn [app values children].
  apply in_or_app. right. apply in_flat_map. exists c. auto.
Qed.

(** X15 (nothing is invented): whatever the keys and the query, a value
    that [Find(dst, q)] returns was in [dst] or was passed to [Add]. *)
Theorem Find_only_added (ops : list (gostring * Z)) (t : Trie)
    (dst : list Z) (q : gostring) (res : list Z) (v : Z) :
  build ops = Ok t -> Find t dst q = Ok res -> In v res ->
  In v dst \/ In v (map snd ops).
Proof.
  intros Hb Hf Hv. unfold Find in Hf.
  destruct (find_values (root t) dst q res Hf) as (ms & -> & Hms).
  apply in_app_or in Hv as [Hv|Hv]; [now left|right].
  apply Hms in Hv.
  apply (Permutation_in _ (build_from_values ops zero t Hb)) in Hv.
  cbn [collectValues root zero app] in Hv. rewrite app_nil_r in Hv.
  apply in_map_iff in Hv as (e & <- & He).
  now apply all_suffixes_values.
Qed.

(** The false positive for "azX" is still a value that was added. *)
Lemma Find_only_added_witness :
  In 1%Z [9%Z] \/ In 1%Z (map snd [(str "abX", 1%Z); (str "abY", 2%Z)]).
Proof.
  apply (Find_only_added [(str "abX", 1%Z); (str "abY", 2%Z)]
           (match build [(str "abX", 1%Z); (str "abY", 2%Z)] with
            | Ok t => t | _ => zero end)
           [9%Z] (str "azX") [9%Z; 1%Z] 1%Z).
  - vm_compute. reflexivity.
  - vm_compute. reflexivity.
  - right. now left.
Defined.

(** ** A query that starts with an unknown rune *)

Lemma add_stocked (fuel : nat) (n n' : node) (key : gostring) (value : Z) :
  add_fuel fuel n key value = Ok n' -> stocked n'.
Proof.
  intros Ha Hnil. apply add_fuel_values in Ha. unfold stocked in *.
  rewrite Hnil in Ha. now apply Permutation_nil in Ha.
Qed.

Lemma add_root_stocked (fuel : nat) (n n' : node) (key : gostring)
    (value : Z) :
  prefix n = [] -> key <> [] -> Forall stocked (children n) ->
  add_fuel fuel n key value = Ok n' -> Forall stocked (children n').
Proof.
  destruct fuel as [|fuel]; [discriminate|].
  destruct n as [p vs cs]. cbn [prefix children]. intros -> Hne Hcs.
  cbn [add_fuel]. unfold add_body. cbn [prefix].
  rewrite commonPrefix_nil. cbn [bind length Nat.ltb Nat.leb].
  destruct key as [|b key]; [congruence|].
  cbn [length Nat.eqb prefix values children].
  unfold slice_from. cbn [length Nat.leb skipn bind].
  match goal with |- add_loop ?rec _ _ 0 ?sk ?fr _ = _ -> _ =>
    pose proof (add_loop_from rec [] vs sk fr value cs cs [] eq_refl
                  (Forall_nil _)) as Hout
  end.
  cbn [length] in Hout.
  destruct Hout as [l1 l2 -> _ _ | l1 l2 c r -> _ _ ->].
  - intros [= <-]. cbn [children].
    apply Forall_app in Hcs as [H1 H2]. apply Forall_app. split; auto.
    constructor; [|assumption]. unfold stocked. cbn. discriminate.
  - destruct (add_fuel fuel c (b :: key) value) as [c'| |] eqn:Hc;
      cbn [bind]; [|discriminate..].
    intros [= <-]. cbn [children].
    apply Forall_app in Hcs as [H1 H2]. inversion H2; subst.
    apply Forall_app. split; auto. constructor; [|assumption].
    eapply add_stocked; eassumption.
Qed.

Lemma Add_loop_stocked (key : gostring) (value : Z) (offs : list nat) :
  forall t t',
    Forall (fun j => j < length key) offs ->
    prefix (root t) = [] -> Forall stocked (children (root t)) ->
    Add_loop t key value offs = Ok t' ->
    Forall stocked (children (root t')).
Proof.
  induction offs as [|i offs IH]; intros t t' Hoffs Hp Hs; cbn [Add_loop].
  - now intros [= <-].
  - inversion Hoffs as [|? ? Hi Hrest]; subst.
    unfold slice_from. destruct (Nat.leb_spec i (length key)); [|lia].
    cbn [bind]. destruct (add (root t) (skipn i key) value) as [r| |] eqn:Ha;
      cbn [bind]; [|discriminate..].
    assert (skipn i key <> []) as Hne.
    { intros Hnil. apply (f_equal (@length _)) in Hnil.
      rewrite length_skipn in Hnil. cbn [length] in Hnil. lia. }
    unfold add in Ha. apply IH; auto; cbn [root].
    + now apply (add_root_keeps _ _ _ _ _ Hp Hne Ha).
    + now apply (add_root_stocked _ _ _ _ _ Hp Hne Hs Ha).
Qed.

(** Every child of the root of a built trie holds a value. *)
Lemma build_stocked (ops : list (gostring * Z)) (t : Trie) :
  build ops = Ok t -> Forall stocked (children (root t)).
Proof.
  unfold build.
  assert (prefix (root zero) = [] /\ values (root zero) = [] /\
          Forall stocked (children (root zero))) as H0
      by (repeat split; constructor).
  revert t H0. generalize zero.
  induction ops as [|[key value] ops IH]; intros t0 t (Hp & Hv & Hs);
    cbn [build_from].
  - now intros [= <-].
  - destruct (Add t0 key value) as [t1| |] eqn:Ha; cbn [bind];
      [|discriminate..].
    apply IH. unfold Add in Ha.
    pose proof (range_from_lt key 0 0) as Hlt.
    destruct (Add_loop_root key value (range key) t0 t1 Hlt (conj Hp Hv) Ha).
    repeat split; auto.
    exact (Add_loop_stocked key value (range key) t0 t1 Hlt Hp Hs Ha).
Qed.

(** X4 (unknown first rune): in a trie built by [Add] calls with valid
    keys, a non-empty query (any bytes) whose first rune is the first rune
    of no inserted suffix, that is, occurs in no key, is answered without
    panic by [dst] itself. *)
Theorem Find_unknown_rune (ops : list (gostring * Z)) (t : Trie)
    (dst : list Z) (q : gostring) :
  valid_keys ops -> build ops = Ok t -> q <> [] ->
  (forall e, In e (all_suffixes ops) -> firstRune (fst e) <> firstRune q) ->
  Find t dst q = Ok dst.
Proof.
  intros Hops Hb Hne Hq.
  destruct (build_stores ops t Hops Hb) as [(Hwf & Hp & _) Hperm].
  pose proof (build_stocked ops t Hb) as Hst.
  unfold Find. destruct (root t) as [p vs cs]. cbn [prefix children] in *.
  subst p. rewrite find_unfold.
  assert (HasPrefix [] q = false) as ->.
  { apply HasPrefix_false. intros [r Hr]. destruct q; [congruence|discriminate]. }
  unfold slice_from. cbn [length Nat.leb skipn bind].
  destruct (search_loop_returns cs (firstRune q) (length cs) 0 (length cs))
    as (lo & -> & Hlo); try lia.
  cbn [bind]. destruct (Nat.leb_spec (length cs) lo); [reflexivity|].
  destruct (nth_error cs lo) as [c|] eqn:Hc.
  2:{ apply nth_error_None in Hc. lia. }
  destruct (Z.eqb_spec (child_key c) (firstRune q)) as [Hk|Hk];
    [|reflexivity].
  exfalso. apply nth_error_In in Hc.
  apply wf_unfold in Hwf as (_ & _ & Hcs).
  rewrite Forall_forall in Hst, Hcs.
  destruct (Hcs c Hc) as [Hcne Hcwf]. specialize (Hst c Hc).
  unfold stocked in Hst. rewrite collectValues_entries in Hst. cbn [app] in Hst.
  destruct (entries c) as [|e es] eqn:He; [now apply Hst|].
  assert (In e (entries c)) as Hin by (rewrite He; now left).
  pose proof (entries_prefix c e Hin) as [s Hs].
  apply (Hq e).
  - apply (Permutation_in _ Hperm). cbn [entries]. unfold shift.
    apply in_map_iff. exists e. split; [now destruct e|].
    apply in_or_app. right. apply in_flat_map. now exists c.
  - rewrite Hs, <- Hk. apply firstRune_app; [|assumption].
    destruct c. now apply wf_unfold in Hcwf.
Qed.

(** No key of the package example contains the letter "z". *)
Lemma Find_unknown_rune_witness :
  Find ex_trie [5%Z] (str "zebra") = Ok [5%Z].
Proof.
  apply (Find_unknown_rune ex_ops ex_trie [5%Z] (str "zebra")).
  - repeat constructor.
  - vm_compute. reflexivity.
  - discriminate.
  - intros e He.
    assert (forallb (fun e => negb (firstRune (fst e)
                                    =? firstRune (str "zebra"))%Z)
                    (all_suffixes ex_ops) = true) as H
        by (vm_compute; reflexivity).
    rewrite forallb_forall in H. specialize (H e He).
    now apply negb_true_iff, Z.eqb_neq in H.
Defined.

(** ** The contract of [insertChildAtIndex] *)

Lemma insertChildAtIndex_end (p : gostring) (vs : list Z) (cs : list node)
    (c : node) :
  cs <> [] ->
  insertChildAtIndex (Node p vs cs) c (length cs) = Ok (Node p vs (cs ++ [c])).
Proof.
  intros Hne. unfold insertChildAtIndex. cbn [children prefix values].
  destruct (nth_error cs (length cs - 1)) as [l|] eqn:Hl.
  2:{ apply nth_error_None in Hl. destruct cs; [congruence|cbn in Hl; lia]. }
  assert (length (cs ++ [l]) = length cs + 1) as Hlen
    by (rewrite length_app; reflexivity).
  rewrite Hlen.
  destruct (Nat.leb_spec (length cs + 1) (length cs + 1)); [|lia].
  destruct (Nat.leb_spec (length cs) (length cs + 1 - 1)); [|lia].
  cbn [andb].
  assert (firstn (length cs + 1) (cs ++ [l]) = cs ++ [l]) as ->
    by (rewrite <- Hlen; apply firstn_all).
  assert (skipn (length cs + 1) (cs ++ [l]) = []) as ->
    by (rewrite <- Hlen; apply skipn_all).
  unfold copy. cbn [length firstn skipn].
  rewrite skipn_nil. cbn [app]. rewrite app_nil_r, Hlen.
  destruct (Nat.ltb_spec (length cs) (length cs + 1)); [|lia].
  f_equal. f_equal. apply (store_app cs [] l c).
Qed.

(** X8 ([insertChildAtIndex]): on a node with children and an index
    [i <= len(children)], the children before [i] stay, [c] is at [i], and
    the children from [i] on follow in their order; on a node without
    children, and for [i > len(children)], the call panics. *)
Theorem insertChildAtIndex_contract (n c : node) (i : nat) :
  insertChildAtIndex n c i =
  match children n with
  | [] => Panic
  | _ :: _ =>
    if i <=? length (children n)
    then Ok (Node (prefix n) (values n)
                  (firstn i (children n) ++ c :: skipn i (children n)))
    else Panic
  end.
Proof.
  destruct n as [p vs cs]. cbn [children prefix values].
  destruct cs as [|x cs]; [reflexivity|].
  set (l := x :: cs).
  assert (l <> []) as Hne by discriminate.
  clearbody l. clear x cs.
  destruct (Nat.leb_spec i (length l)) as [Hle|Hgt].
  - destruct (Nat.eq_dec i (length l)) as [->|Hi].
    + rewrite firstn_all, skipn_all. now apply insertChildAtIndex_end.
    + assert (i < length l) as Hlt by lia.
      pose proof (firstn_skipn i l) as Hl.
      destruct (skipn i l) as [|y l2] eqn:Hs.
      { apply (f_equal (@length _)) in Hs. rewrite length_skipn in Hs.
        cbn [length] in Hs. lia. }
      assert (length (firstn i l) = i) as Hlen
          by (rewrite length_firstn; lia).
      remember (firstn i l) as l1 eqn:Hl1. clear Hl1 Hs Hne Hle Hi Hlt.
      subst l i. apply insertChildAtIndex_app.
  - unfold insertChildAtIndex. cbn [children].
    destruct (nth_error l (length l - 1)); [|reflexivity].
    rewrite length_app. cbn [length].
    destruct (Nat.leb_spec (i + 1) (length l + 1)); [lia|reflexivity].
Qed.

(** ** The contract of [commonPrefix] *)

(** X9 ([commonPrefix]): on two valid strings [commonPrefix] returns,
    without panic, a valid string that both start with, and every valid
    string that both start with is a prefix of it: their longest common
    prefix made of whole runes. *)
Theorem commonPrefix_longest (a b : gostring) :
  ValidString a = true -> ValidString b = true ->
  exists cp,
    commonPrefix a b = Ok cp /\
    HasPrefix a cp = true /\ HasPrefix b cp = true /\
    ValidString cp = true /\
    forall c,
      ValidString c = true -> HasPrefix a c = true -> HasPrefix b c = true ->
      HasPrefix cp c = true.
Proof.
  intros Ha Hb. apply ValidString_valid in Ha, Hb.
  destruct (commonPrefix_valid a b Ha Hb)
    as (cp & a' & b' & Hc & -> & -> & Hcp & Ha' & Hb' & Hd).
  exists cp. split; [assumption|].
  split; [apply HasPrefix_true; now exists a'|].
  split; [apply HasPrefix_true; now exists b'|].
  split; [now apply ValidString_iff|].
  intros c Hvc Hac Hbc. apply ValidString_valid in Hvc.
  apply HasPrefix_true in Hac as [x Hx]. apply HasPrefix_true in Hbc as [y Hy].
  apply HasPrefix_true.
  symmetry in Hx. apply app_eq_app in Hx as [l [[Hl Hl']|[Hl Hl']]].
  2:{ now exists l. }
  destruct l as [|z l]; [exists []; now rewrite Hl, !app_nil_r|]. exfalso.
  subst c. rewrite <- app_assoc in Hy. apply app_inv_head in Hy.
  assert (valid (z :: l)) as Hvl by exact (valid_app_inv cp (z :: l) Hcp Hvc).
  subst a' b'.
  destruct Hd as [?|[?|Hd]]; try discriminate.
  apply Hd. rewrite !firstRune_app; auto; discriminate.
Qed.

(** "www.google.com" and "www.foogle.net" have "www." in common. *)
Lemma commonPrefix_longest_witness :
  exists cp,
    commonPrefix (str "www.google.com") (str "www.foogle.net") = Ok cp /\
    HasPrefix (str "www.google.com") cp = true /\
    HasPrefix (str "www.foogle.net") cp = true /\
    ValidString cp = true /\
    forall c,
      ValidString c = true ->
      HasPrefix (str "www.google.com") c = true ->
      HasPrefix (str "www.foogle.net") c = true ->
      HasPrefix cp c = true.
Proof.
  apply (commonPrefix_longest (str "www.google.com") (str "www.foogle.net"));
    reflexivity.
Defined.

(** ** The slot of the binary search *)

Lemma partition_index (l1 l2 : list node) (fr : Z) (d : node) (m : nat) :
  Forall (fun c => (child_key c < fr)%Z) l1 ->
  Forall (fun c => (fr <= child_key c)%Z) l2 ->
  nth_error (l1 ++ l2) m = Some d ->
  ((child_key d < fr)%Z <-> m < length l1).
Proof.
  intros H1 H2 Hm. rewrite Forall_forall in H1, H2.
  destruct (Nat.lt_ge_cases m (length l1)) as [Hlt|Hge].
  - rewrite nth_error_app1 in Hm by assumption.
    apply nth_error_In in Hm. specialize (H1 d Hm). tauto.
  - rewrite nth_error_app2 in Hm by assumption.
    apply nth_error_In in Hm. specialize (H2 d Hm). lia.
Qed.

Lemma search_loop_partition (l1 l2 : list node) (fr : Z) (fuel : nat) :
  Forall (fun c => (child_key c < fr)%Z) l1 ->
  Forall (fun c => (fr <= child_key c)%Z) l2 ->
  forall lo hi,
    lo <= length l1 <= hi -> hi <= length (l1 ++ l2) ->
    hi - lo <= fuel ->
    search_loop fuel (l1 ++ l2) fr lo hi = Ok (length l1).
Proof.
  intros H1 H2. induction fuel as [|fuel IH]; intros lo hi Hk Hhi Hf;
    cbn [search_loop].
  - destruct (Nat.ltb_spec lo hi); [lia|]. f_equal. lia.
  - destruct (Nat.ltb_spec lo hi) as [Hlt|Hge]; [|f_equal; lia].
    assert ((hi - lo) / 2 < hi - lo) as Hmid by (apply Nat.div_lt; lia).
    destruct (nth_error (l1 ++ l2) (lo + (hi - lo) / 2)) as [d|] eqn:Hd.
    2:{ apply nth_error_None in Hd. lia. }
    fold (child_key d).
    pose proof (partition_index l1 l2 fr d _ H1 H2 Hd) as Hidx.
    destruct (Z.ltb_spec (child_key d) fr).
    + apply IH; lia.
    + apply IH; lia.
Qed.

(** Ascending children are those of smaller first rune, then the others. *)
Lemma ascending_partition (cs : list node) (fr : Z) :
  ascending cs ->
  exists l2,
    cs = filter (fun c => (child_key c <? fr)%Z) cs ++ l2 /\
    Forall (fun c => (fr <= child_key c)%Z) l2.
Proof.
  unfold ascending. induction cs as [|x cs IH]; cbn [map filter]; intros Hs.
  - exists []. split; [reflexivity|constructor].
  - apply StronglySorted_inv in Hs as [Hs Hx].
    destruct (Z.ltb_spec (child_key x) fr) as [Hlt|Hge].
    + destruct (IH Hs) as (l2 & Hl & H2). exists l2. split; [|assumption].
      cbn [app]. now rewrite <- Hl.
    + rewrite Forall_map in Hx. rewrite Forall_forall in Hx.
      rewrite filter_none.
      * exists (x :: cs). split; [reflexivity|].
        constructor; [assumption|]. apply Forall_forall.
        intros c Hc. specialize (Hx c Hc). lia.
      * intros c Hc. specialize (Hx c Hc). apply Z.ltb_ge. lia.
Qed.

(** X12 (binary search): on children in ascending order of first rune,
    the binary search of [find] returns the number of children whose first
    rune is smaller than the sought one, which is the index of the child
    with that first rune if there is one. *)
Theorem search_slot (cs : list node) (fr : Z) :
  ascending cs ->
  search_loop (length cs) cs fr 0 (length cs)
  = Ok (length (filter (fun c => (child_key c <? fr)%Z) cs)).
Proof.
  intros Hasc. destruct (ascending_partition cs fr Hasc) as (l2 & Hl & H2).
  assert (Forall (fun c => (child_key c < fr)%Z)
                 (filter (fun c => (child_key c <? fr)%Z) cs)) as H1.
  { apply Forall_forall. intros c Hc. apply filter_In in Hc as [_ Hc].
    now apply Z.ltb_lt. }
  remember (filter (fun c => (child_key c <? fr)%Z) cs) as l1 eqn:E.
  clear E Hasc. subst cs. apply search_loop_partition; auto;
    rewrite ?length_app; lia.
Qed.

(** The children of the root of the package example and the rune "o". *)
Lemma search_slot_witness :
  search_loop (length (children (root ex_trie))) (children (root ex_trie))
              111%Z 0 (length (children (root ex_trie)))
  = Ok (length (filter (fun c => (child_key c <? 111)%Z)
                       (children (root ex_trie)))).
Proof.
  apply (search_slot (children (root ex_trie)) 111%Z).
  unfold ascending. vm_compute.
  repeat (constructor; [|repeat (constructor; [reflexivity|])]); constructor.
Defined.

(** ** [Add] on valid keys *)

(** X6 ([Add] does not panic): a sequence of [Add] calls with valid keys on
    the zero value returns a trie, and so does one more [Add] with a valid
    key on that trie. *)
Theorem Add_returns (ops : list (gostring * Z)) (key : gostring) (value : Z) :
  valid_keys ops -> ValidString key = true ->
  exists t t', build ops = Ok t /\ Add t key value = Ok t'.
Proof.
  intros Hops Hk.
  destruct (build_ok ops Hops) as (t & Hb & Hwf & _).
  destruct (Add_ok t key value Hwf (ValidString_valid _ Hk)) as (t' & Ha & _).
  now exists t, t'.
Qed.

(** A key with runes of one to four bytes. *)
Lemma Add_returns_witness :
  exists t t',
    build ex_ops = Ok t /\
    Add t [x61; xc3; xa9; xe2; x82; xac; xf0; x9f; x98; x80] 3%Z = Ok t'.
Proof.
  apply (Add_returns ex_ops
           [x61; xc3; xa9; xe2; x82; xac; xf0; x9f; x98; x80] 3%Z).
  - repeat constructor.
  - reflexivity.
Defined.

(** ** What [add] stores *)

(** X14 ([add] stores the key): on a well-formed node, for a valid,
    non-empty key that the node can take (the label of the node is empty, as
    at the root, or starts with the first rune of the key, as at the child
    that the loop of [add] descends into), [add] returns a well-formed node
    that stores the strings it stored before, with their values, and the
    key with the value. *)
Theorem add_stores (n : node) (key : gostring) (value : Z) :
  wf n -> ValidString key = true -> key <> [] ->
  prefix n = [] \/ firstRune (prefix n) = firstRune key ->
  exists n',
    add n key value = Ok n' /\ wf n' /\
    Permutation (entries n') ((key, value) :: entries n).
Proof.
  intros Hwf Hk Hne Hfr.
  destruct (add_fuel_ok (height n) n key value Hwf (ValidString_valid _ Hk)
              Hne Hfr (Nat.le_refl _)) as (n' & Ha & Hwf' & _ & _ & Hp).
  now exists n'.
Qed.

(** "abd" added to a node that holds "abc". *)
Lemma add_stores_witness :
  exists n',
    add (Node (str "abc") [1%Z] []) (str "abd") 2%Z = Ok n' /\ wf n' /\
    Permutation (entries n')
      ((str "abd", 2%Z) :: entries (Node (str "abc") [1%Z] [])).
Proof.
  apply (add_stores (Node (str "abc") [1%Z] []) (str "abd") 2%Z).
  - cbn [wf]. split; [|split; [constructor|exact I]].
    apply ValidString_valid. reflexivity.
  - reflexivity.
  - discriminate.
  - right. reflexivity.
Defined.

(** ** The zero value *)

(** X16 (the zero value is ready to use): on the zero value of [Trie],
    [Find] returns [dst] as it is, for every query, without panic. *)
Theorem Find_zero (dst : list Z) (q : gostring) : Find zero dst q = Ok dst.
Proof.
  unfold Find, zero. cbn [root]. rewrite find_unfold.
  destruct q as [|b q].
  - cbn. now rewrite app_nil_r.
  - assert (HasPrefix [] (b :: q) = false) as ->.
    { apply HasPrefix_false. intros [r Hr]. discriminate. }
    reflexivity.
Qed.
